(** * Two-way reconciliation of tabular datasets (src/main.py)

    A shallow embedding of the reconciliation core of [src/main.py]:
    [get_user_choice], [merge_rows_enhanced] and the comparison loop of
    [compare_json_enhanced], followed by the properties of the specification
    that concern them.

    Modelling conventions.
    - A Python [str] is a [string]; every character stands for one code point
      (the range 0..255 is representable).  [strip] removes the characters
      Python's [str.strip()] removes in that range.
    - A cell is a [str] (the decoder [excel_to_json_streaming] writes only
      strings), so [str(cell)] is the identity and [cell is not None] holds.
    - A row that may be [None] is an [option row]; Python truthiness of a row
      ([if lrow]) is [row_truthy]: present and of non-zero length.
    - A dataset (the dict read by [json.load]) is a [gmap] from sheet names to
      sheets; a sheet carries its ["headers"] and its ["rows"].
    - Console interaction is explicit state: [input()] consumes a line of
      [stdin] and raises [EOFError] (here: [None]) when none is left; what is
      shown to the operator at a conflict and every call of [get_user_choice]
      is appended to [trace].  Progress messages are not recorded. *)

From Stdlib Require Import Ascii String NArith.
From stdpp Require Import base option list strings pretty gmap.

Open Scope string_scope.
Open Scope list_scope.

(** ** Python strings *)

(** The code points below 256 for which [str.isspace()] holds. *)
Definition is_space (c : ascii) : bool :=
  let n := N_of_ascii c in
  ((9 <=? n) && (n <=? 13) || (28 <=? n) && (n <=? 32)
   || (n =? 133) || (n =? 160))%N.

Fixpoint lstrip (s : string) : string :=
  match s with
  | EmptyString => EmptyString
  | String c s' => if is_space c then lstrip s' else s
  end.

Fixpoint rstrip (s : string) : string :=
  match s with
  | EmptyString => EmptyString
  | String c s' =>
      match rstrip s' with
      | EmptyString => if is_space c then EmptyString else String c EmptyString
      | String _ _ as t => String c t
      end
  end.

(** [s.strip()] *)
Definition strip (s : string) : string := rstrip (lstrip s).

(** Truthiness of a [str]: non-empty. *)
Definition str_truthy (s : string) : bool :=
  match s with EmptyString => false | String _ _ => true end.

(** ** Table model *)

Abbreviation row := (list string).

Record sheet_t := Sheet { sheet_headers : list string; sheet_rows : list row }.

Abbreviation dataset := (gmap string sheet_t).

(** The default of [local_data.get(sheet, {"headers": [], "rows": []})]. *)
Definition empty_sheet : sheet_t := Sheet [] [].

(** Truthiness of a list: non-empty. *)
Definition list_truthy {A} (l : list A) : bool :=
  match l with [] => false | _ :: _ => true end.

(** Truthiness of a row that may be [None]. *)
Definition row_truthy (r : option row) : bool :=
  match r with Some (_ :: _) => true | _ => false end.

(** [any(str(cell).strip() for cell in r)] *)
Definition any_content (r : row) : bool :=
  existsb (fun cell => str_truthy (strip cell)) r.

(** A row is blank when every cell is empty after trimming. *)
Definition is_blank (r : row) : bool :=
  forallb (fun cell => negb (str_truthy (strip cell))) r.

(** ** Console interaction *)

Inductive event :=
| Display (sheet : string) (row_idx : nat) (headers : list string)
          (lrow rrow : option row)
    (** a call of [display_conflict_detailed] *)
| FieldConflict (header lv rv : string)
    (** the field-conflict message of [merge_rows_enhanced] *)
| Ask (prompt : string) (valid_choices : list string).
    (** a call of [get_user_choice] *)

Record world := World { stdin : list string; trace : list event }.

(** A computation that reads the console: [None] is an uncaught [EOFError]. *)
Definition io (A : Type) : Type := world -> option (A * world).

Definition ret {A} (a : A) : io A := fun w => Some (a, w).

Definition bind {A B} (m : io A) (k : A -> io B) : io B :=
  fun w => match m w with
           | Some (a, w') => k a w'
           | None => None
           end.

Notation "'let!' x ':=' m 'in' k" := (bind m (fun x => k))
  (at level 10, x name, m at level 100, k at level 200).

Definition emit (e : event) : io unit :=
  fun w => Some (tt, World (stdin w) (trace w ++ [e])).

(** [for x in xs: s = body(x, s)] *)
Fixpoint for_each {X S} (xs : list X) (body : X -> S -> io S) (s : S) : io S :=
  match xs with
  | [] => ret s
  | x :: rest => let! s' := body x s in for_each rest body s'
  end.

(** The [while True] loop of [get_user_choice] over the remaining lines. *)
Fixpoint read_choice (valid_choices : list string) (lines : list string)
  : option (string * list string) :=
  match lines with
  | [] => None
  | line :: rest =>
      let choice := strip line in
      if bool_decide (choice ∈ valid_choices) then Some (choice, rest)
      else read_choice valid_choices rest
  end.

Definition get_user_choice (prompt : string) (valid_choices : list string)
  : io string :=
  fun w => match read_choice valid_choices (stdin w) with
           | Some (choice, rest) =>
               Some (choice, World rest (trace w ++ [Ask prompt valid_choices]))
           | None => None
           end.

Definition display_conflict_detailed (sheet : string) (row_idx : nat)
    (headers : list string) (lrow rrow : option row) : io unit :=
  emit (Display sheet row_idx headers lrow rrow).

(** ** Row reconciliation *)

Definition field_choices : list string := ["1"; "2"].

(** Body of the [for i in range(max_len)] loop of [merge_rows_enhanced]. *)
Definition merge_field (headers : list string) (lrow rrow : row) (i : nat)
    (merged : list string) : io (list string) :=
  let lv := default "" (lrow !! i) in
  let rv := default "" (rrow !! i) in
  let header := default ("Column_" +:+ pretty (i + 1)) (headers !! i) in
  let lv_clean := strip lv in
  let rv_clean := strip rv in
  if bool_decide (lv_clean = rv_clean) then ret (merged ++ [lv_clean])
  else if str_truthy lv_clean && negb (str_truthy rv_clean)
       then ret (merged ++ [lv_clean])
  else if str_truthy rv_clean && negb (str_truthy lv_clean)
       then ret (merged ++ [rv_clean])
  else
    let! _ := emit (FieldConflict header lv_clean rv_clean) in
    let! choice := get_user_choice "Choose" field_choices in
    ret (merged ++ [if bool_decide (choice = "1") then lv_clean else rv_clean]).

Definition merge_rows_enhanced (headers : list string) (lrow rrow : option row)
  : io (option row) :=
  if negb (row_truthy lrow) && negb (row_truthy rrow) then ret None
  else if negb (row_truthy lrow) then ret rrow
  else if negb (row_truthy rrow) then ret lrow
  else
    let l := default [] lrow in
    let r := default [] rrow in
    let max_len := max (length l) (length r) in
    let! merged := for_each (seq 0 max_len) (merge_field headers l r) [] in
    ret (Some merged).

(** ** Sheet and dataset reconciliation *)

Definition row_prompt : string := String "010" "Resolve conflict".

Definition row_choices : list string := ["1"; "2"; "3"; "4"; "s"].

(** [resolved_rows.append(r)] for a row [r] known to be truthy. *)
Definition append_row (resolved_rows : list row) (r : option row) : list row :=
  resolved_rows ++ option_list r.

(** Body of the [for i in range(max_len)] loop of [compare_json_enhanced];
    the state is [(resolved_rows, sheet_conflicts)]. *)
Definition row_step (sheet : string) (headers : list string)
    (local_rows remote_rows : list row) (i : nat) (st : list row * nat)
  : io (list row * nat) :=
  let '(resolved_rows, sheet_conflicts) := st in
  let lrow := local_rows !! i in
  let rrow := remote_rows !! i in
  if bool_decide (lrow = rrow) then
    if row_truthy lrow && any_content (default [] lrow)
    then ret (append_row resolved_rows lrow, sheet_conflicts)
    else ret (resolved_rows, sheet_conflicts)
  else
    let sheet_conflicts := S sheet_conflicts in
    let! _ := display_conflict_detailed sheet i headers lrow rrow in
    let! choice := get_user_choice row_prompt row_choices in
    if bool_decide (choice = "1") && row_truthy lrow
    then ret (append_row resolved_rows lrow, sheet_conflicts)
    else if bool_decide (choice = "2") && row_truthy rrow
    then ret (append_row resolved_rows rrow, sheet_conflicts)
    else if bool_decide (choice = "3") then
      let! merged := merge_rows_enhanced headers lrow rrow in
      if row_truthy merged
      then ret (append_row resolved_rows merged, sheet_conflicts)
      else ret (resolved_rows, sheet_conflicts)
    else if bool_decide (choice = "4") then
      let! merged := merge_rows_enhanced headers rrow lrow in
      if row_truthy merged
      then ret (append_row resolved_rows merged, sheet_conflicts)
      else ret (resolved_rows, sheet_conflicts)
    else ret (resolved_rows, sheet_conflicts).

(** The condition of the final list comprehension:
    [r and any(str(cell).strip() for cell in r)]. *)
Definition kept (r : row) : bool := list_truthy r && any_content r.

(** One iteration of [for sheet in all_sheets], from the two sheets to the
    entry stored in [resolved] and the sheet's conflict count. *)
Definition compare_sheet (sheet : string) (local_sheet remote_sheet : sheet_t)
  : io (sheet_t * nat) :=
  let headers :=
    if list_truthy (sheet_headers local_sheet) then sheet_headers local_sheet
    else sheet_headers remote_sheet in
  let local_rows := sheet_rows local_sheet in
  let remote_rows := sheet_rows remote_sheet in
  let max_len := max (length local_rows) (length remote_rows) in
  let! st :=
    for_each (seq 0 max_len)
             (row_step sheet headers local_rows remote_rows) ([], 0) in
  let '(resolved_rows, sheet_conflicts) := st in
  ret (Sheet headers (List.filter kept resolved_rows), sheet_conflicts).

(** Body of [for sheet in all_sheets]; the state is
    [(resolved, total_conflicts)]. *)
Definition sheet_step (local_data remote_data : dataset) (sheet : string)
    (st : dataset * nat) : io (dataset * nat) :=
  let '(resolved, total_conflicts) := st in
  let local_sheet := default empty_sheet (local_data !! sheet) in
  let remote_sheet := default empty_sheet (remote_data !! sheet) in
  let! res := compare_sheet sheet local_sheet remote_sheet in
  let '(entry, sheet_conflicts) := res in
  ret (<[sheet := entry]> resolved, total_conflicts + sheet_conflicts).

(** [compare_json_enhanced] on the two decoded datasets.  [all_sheets] is the
    order in which Python iterates over the set
    [set(local_data.keys()).union(remote_data.keys())]; the result is the
    dict written to [resolved_file] and the reported [total_conflicts]. *)
Definition compare_json_enhanced (all_sheets : list string)
    (local_data remote_data : dataset) : io (dataset * nat) :=
  for_each all_sheets (sheet_step local_data remote_data) (∅, 0).

(** [all_sheets] enumerates the union of the two key sets, each name once. *)
Definition enumerates (all_sheets : list string)
    (local_data remote_data : dataset) : Prop :=
  NoDup all_sheets ∧
  ∀ name, name ∈ all_sheets ↔ name ∈ dom local_data ∪ dom remote_data.

(** ** Observations used by the properties *)

(** A row-level decision: a call of [get_user_choice] with the five row
    options. *)
Definition is_row_ask (e : event) : bool :=
  match e with
  | Ask prompt valid_choices =>
      bool_decide (prompt = row_prompt ∧ valid_choices = row_choices)
  | _ => false
  end.

(** A field-level decision: a call with the two field options. *)
Definition is_field_ask (e : event) : bool :=
  match e with
  | Ask prompt valid_choices =>
      bool_decide (prompt = "Choose" ∧ valid_choices = field_choices)
  | _ => false
  end.

Definition row_decisions (t : list event) : nat :=
  length (List.filter is_row_ask t).

Definition field_decisions (t : list event) : nat :=
  length (List.filter is_field_ask t).

(** The positional indices at which the two sheets diverge. *)
Definition diverging (local_rows remote_rows : list row) : list nat :=
  List.filter (λ i, bool_decide (local_rows !! i ≠ remote_rows !! i))
              (seq 0 (max (length local_rows) (length remote_rows))).

(** A row extended with empty-string cells up to width [n]. *)
Definition pad (n : nat) (r : row) : row := r ++ replicate (n - length r) "".

(** The values a merged cell may take at position [i], from the four
    branches of [merge_field]. *)
Definition field_value (l r : row) (i : nat) (v : string) : Prop :=
  let lv_clean := strip (default "" (l !! i)) in
  let rv_clean := strip (default "" (r !! i)) in
  (lv_clean = rv_clean → v = lv_clean) ∧
  (rv_clean = "" → v = lv_clean) ∧
  (lv_clean = "" → v = rv_clean) ∧
  (v = lv_clean ∨ v = rv_clean).

(** A sheet with its blank rows removed. *)
Definition without_blank (s : sheet_t) : sheet_t :=
  Sheet (sheet_headers s) (List.filter (λ r, negb (is_blank r)) (sheet_rows s)).

(** The answers of an operator who skips every conflict: one "s" per
    diverging index, sheet after sheet in the iteration order. *)
Definition skip_all_answers (all_sheets : list string)
    (local_data remote_data : dataset) : list string :=
  flat_map
    (λ name,
       replicate
         (length (diverging
                    (sheet_rows (default empty_sheet (local_data !! name)))
                    (sheet_rows (default empty_sheet (remote_data !! name)))))
         "s")
    all_sheets.

(** ** Further observations *)

(** Whether position [i] of two rows is a field conflict: both trimmed values
    non-empty and different (the last branch of [merge_field]). *)
Definition field_conflict (l r : row) (i : nat) : bool :=
  let lv_clean := strip (default "" (l !! i)) in
  let rv_clean := strip (default "" (r !! i)) in
  str_truthy lv_clean && str_truthy rv_clean
  && negb (bool_decide (lv_clean = rv_clean)).

(** The positions of two rows that are field conflicts. *)
Definition conflicting (l r : row) : list nat :=
  List.filter (field_conflict l r) (seq 0 (max (length l) (length r))).

(** The cell [merge_field] appends at a position that is not a conflict. *)
Definition auto_cell (l r : row) (i : nat) : string :=
  let lv_clean := strip (default "" (l !! i)) in
  let rv_clean := strip (default "" (r !! i)) in
  if str_truthy lv_clean then lv_clean else rv_clean.

(** A field answer with the two options exchanged; other lines unchanged. *)
Definition flip_answer (line : string) : string :=
  if bool_decide (strip line = "1") then "2"
  else if bool_decide (strip line = "2") then "1"
  else line.

(** Where the row placed for one index comes from: the local row, the remote
    row, or a merge of the two whose cells are trimmed cells of the same
    position. *)
Definition row_origin (lrow rrow : option row) (r : row) : Prop :=
  lrow = Some r ∨ rrow = Some r ∨
  ∃ a b, lrow = Some a ∧ rrow = Some b ∧
         length r = max (length a) (length b) ∧
         ∀ j v, r !! j = Some v →
                v = strip (default "" (a !! j)) ∨ v = strip (default "" (b !! j)).

(** The row an operator with one fixed answer leaves at index [i]: rows that
    agree are taken as they are, "1" takes the local row, "2" the remote
    row, any other answer none. *)
Definition uniform_row (choice : string) (local_rows remote_rows : list row)
    (i : nat) : option row :=
  if bool_decide (local_rows !! i = remote_rows !! i) then local_rows !! i
  else if bool_decide (choice = "1") then local_rows !! i
  else if bool_decide (choice = "2") then remote_rows !! i
  else None.

(** The rows on which the two sheets agree position by position. *)
Definition agreed_rows (local_rows remote_rows : list row) : list row :=
  omap (uniform_row "s" local_rows remote_rows)
       (seq 0 (max (length local_rows) (length remote_rows))).

(** ** What [display_conflict_detailed] prints *)

(** [s * n] *)
Fixpoint str_repeat (s : string) (n : nat) : string :=
  match n with
  | 0 => ""
  | S n' => s +:+ str_repeat s n'
  end.

(** [f"{s:<{width}}"]: [s] left-justified in a field of [width] characters. *)
Definition ljust (width : nat) (s : string) : string :=
  s +:+ str_repeat " " (width - String.length s).

(** [max(len(h) for h in headers) if headers else 10] *)
Definition max_header_len (headers : list string) : nat :=
  if list_truthy headers then foldr max 0 (String.length <$> headers) else 10.

(** The lines printed by one of the two
    [for i, (header, value) in enumerate(zip(headers, row))] loops. *)
Definition value_lines (headers : list string) (r : row) : list string :=
  omap (λ '(i, (header, value)),
          if (i <? length headers)%nat
          then Some ("  " +:+ ljust (max_header_len headers) header
                     +:+ ": " +:+ value)
          else None)
       (zip (seq 0 (length (zip headers r))) (zip headers r)).

(** The arguments of the successive [print] calls of
    [display_conflict_detailed]. *)
Definition display_conflict_output (sheet : string) (row_idx : nat)
    (headers : list string) (lrow rrow : option row) : list string :=
  [String "010" (str_repeat "=" 60);
   "CONFLICT in sheet '" +:+ sheet +:+ "', row " +:+ pretty (row_idx + 2);
   str_repeat "=" 60]
  ++ (if row_truthy lrow
      then "LOCAL VALUES:" :: value_lines headers (default [] lrow) else [])
  ++ (if row_truthy rrow
      then String "010" "REMOTE VALUES:" :: value_lines headers (default [] rrow)
      else []).

(** ** Decoding a workbook ([excel_to_json_streaming]) *)

(** A worksheet is the list of rows [ws.iter_rows(values_only=True)] yields,
    a row a list of cells, a cell [None] or a value.  The values of the
    spreadsheet library and their [str()] and truth value are parameters.
    The result is the dict handed to [json.dump]; opening and writing files
    and the [except] branch are not modelled. *)
Section Decoder.

Context {value : Type} (py_str : value → string) (py_bool : value → bool).

(** [str(h) if h else ""] *)
Definition header_text (h : option value) : string :=
  match h with
  | Some v => if py_bool v then py_str v else ""
  | None => ""
  end.

(** [str(cell) if cell is not None else ""] *)
Definition cell_text (cell : option value) : string :=
  match cell with
  | Some v => py_str v
  | None => ""
  end.

(** [cell is not None and str(cell).strip()] *)
Definition cell_has_content (cell : option value) : bool :=
  match cell with
  | Some v => str_truthy (strip (py_str v))
  | None => false
  end.

(** Body of [for i, row in enumerate(ws.iter_rows(values_only=True))]; the
    state is [(headers, rows)], [headers] starting as [None]. *)
Definition decode_row (i : nat) (cells : list (option value))
    (st : option (list string) * list row) : option (list string) * list row :=
  let '(headers, rows) := st in
  if (i =? 0)%nat then (Some (header_text <$> cells), rows)
  else if existsb cell_has_content cells
       then (headers, rows ++ [cell_text <$> cells])
       else (headers, rows).

(** One iteration of [for sheet_name in wb.sheetnames]: the entry stored
    under the sheet name. *)
Definition decode_sheet (ws : list (list (option value))) : sheet_t :=
  let '(headers, rows) :=
    foldl (λ st '(i, cells), decode_row i cells st) (None, [])
          (zip (seq 0 (length ws)) ws) in
  Sheet (default [] headers) rows.

Definition excel_to_json_streaming
    (wb : list (string * list (list (option value)))) : dataset :=
  foldl (λ (data : dataset) '(sheet_name, ws), <[sheet_name := decode_sheet ws]> data)
        ∅ wb.

End Decoder.

(** ** Writing a sheet ([json_to_excel_optimized]) *)

(** [range(start, stop, step)] for a positive [step]; [fuel] bounds the
    number of elements. *)
Fixpoint range_from (fuel start stop step : nat) : list nat :=
  match fuel with
  | 0 => []
  | S fuel' =>
      if (start <? stop)%nat
      then start :: range_from fuel' (start + step) stop step
      else []
  end.

(** [range(0, stop, step)] *)
Definition range_step (stop step : nat) : list nat :=
  range_from stop 0 stop step.

(** [l[i:j]] for [i <= j] *)
Definition slice {A} (i j : nat) (l : list A) : list A := take (j - i) (drop i l).

Definition batch_size : nat := 100.

(** The rows passed to [ws.append], in order, while one sheet is written:
    the header row when there are headers, then the data rows batch by
    batch. *)
Definition sheet_appends (content : sheet_t) : list row :=
  let headers := sheet_headers content in
  let rows := sheet_rows content in
  (if list_truthy headers then [headers] else [])
  ++ flat_map (λ i, slice i (i + batch_size) rows)
              (range_step (length rows) batch_size).

(** ** [run_git_pull] *)

(** The outcome of [subprocess.run(..., check=True)]: the exception raised on
    a non-zero exit status, or completion with the captured output. *)
Inductive completed := CalledProcessError | Completed (stdout : string).

(** The repository as the function sees it: the outcome of a command, given
    the commands run before it. *)
Definition git_env : Type := list (list string) → list string → completed.

(** The result of [run_git_pull] and the commands it ran, in order. *)
Definition run_git_pull (git : git_env) (branch : string)
  : bool * list (list string) :=
  let status := ["git"; "status"; "--porcelain"] in
  let show_current := ["git"; "branch"; "--show-current"] in
  let checkout := ["git"; "checkout"; branch] in
  let pull := ["git"; "pull"; "origin"; branch] in
  match git [] status with
  | CalledProcessError => (false, [status])
  | Completed result =>
      if str_truthy (strip result) then (false, [status])
      else
        match git [status] show_current with
        | CalledProcessError => (false, [status; show_current])
        | Completed current_branch =>
            if bool_decide (strip current_branch ≠ branch) then
              match git [status; show_current] checkout with
              | CalledProcessError => (false, [status; show_current; checkout])
              | Completed _ =>
                  match git [status; show_current; checkout] pull with
                  | CalledProcessError =>
                      (false, [status; show_current; checkout; pull])
                  | Completed _ =>
                      (true, [status; show_current; checkout; pull])
                  end
              end
            else
              match git [status; show_current] pull with
              | CalledProcessError => (false, [status; show_current; pull])
              | Completed _ => (true, [status; show_current; pull])
              end
        end
  end.

(** ** File names ([process_file_conversion], [main]) *)

(** [s.startswith(p)] *)
Fixpoint starts_with (p s : string) : bool :=
  match p, s with
  | EmptyString, _ => true
  | String _ _, EmptyString => false
  | String c p', String d s' => bool_decide (c = d) && starts_with p' s'
  end.

(** [p in s] *)
Fixpoint contains (p s : string) {struct s} : bool :=
  starts_with p s
  || match s with
     | EmptyString => false
     | String _ t => contains p t
     end.

(** [s.replace(old, new)] for a non-empty [old]: the occurrences of [old]
    are found from left to right without overlap; [skip] counts the
    characters of a matched occurrence still to be passed over. *)
Fixpoint replace_go (old new : string) (skip : nat) (s : string) : string :=
  match s with
  | EmptyString => EmptyString
  | String c t =>
      match skip with
      | S k => replace_go old new k t
      | 0 =>
          if starts_with old (String c t)
          then new +:+ replace_go old new (String.length old - 1) t
          else String c (replace_go old new 0 t)
      end
  end.

Definition replace (old new s : string) : string := replace_go old new 0 s.

(** [os.path.basename(p)]: what follows the last slash. *)
Fixpoint basename (p : string) : string :=
  match p with
  | EmptyString => EmptyString
  | String c t =>
      if contains "/" t then basename t
      else if bool_decide (c = "/"%char) then t
      else String c t
  end.

(** The name under which [process_file_conversion] stores the decoded file:
    [os.path.basename(file_path).replace(".xlsx", ".json")]. *)
Definition json_name (file_path : string) : string :=
  replace ".xlsx" ".json" (basename file_path).

(** The name under which [main] writes a resolved file back:
    [filename.replace('.json', '.xlsx')]. *)
Definition xlsx_name (filename : string) : string :=
  replace ".json" ".xlsx" filename.

(** * Properties *)

(** ** Trimming *)

Section Strings.

Lemma lstrip_head s :
  lstrip s = "" ∨ ∃ c t, lstrip s = String c t ∧ is_space c = false.
Proof.
  induction s as [|c s IH]; simpl; [by left|].
  destruct (is_space c) eqn:Hc; [exact IH|].
  right. by exists c, s.
Qed.

Lemma lstrip_nonspace c t : is_space c = false → lstrip (String c t) = String c t.
Proof. intros Hc. simpl. by rewrite Hc. Qed.

Lemma rstrip_nonspace c t :
  is_space c = false → rstrip (String c t) = String c (rstrip t).
Proof. intros Hc. simpl. destruct (rstrip t); by rewrite ?Hc. Qed.

Lemma rstrip_rstrip s : rstrip (rstrip s) = rstrip s.
Proof.
  induction s as [|c s IH]; simpl; [done|].
  destruct (rstrip s) as [|d t] eqn:Hs.
  - destruct (is_space c) eqn:Hc; simpl; by rewrite ?Hc.
  - change (rstrip (String c (String d t))) with
      (match rstrip (String d t) with
       | EmptyString => if is_space c then EmptyString else String c EmptyString
       | String _ _ as u => String c u
       end).
    by rewrite IH.
Qed.

Lemma strip_strip s : strip (strip s) = strip s.
Proof.
  unfold strip.
  destruct (lstrip_head s) as [->|(c & t & -> & Hc)]; [done|].
  rewrite (rstrip_nonspace c t Hc), (lstrip_nonspace c _ Hc).
  rewrite <- (rstrip_nonspace c t Hc). apply rstrip_rstrip.
Qed.

Lemma strip_empty : strip "" = "".
Proof. reflexivity. Qed.

Lemma str_truthy_false s : str_truthy s = false ↔ s = "".
Proof. destruct s; simpl; split; congruence. Qed.

End Strings.

(** ** Blank rows *)

Section Blank.

Lemma kept_not_blank r : kept r = negb (is_blank r).
Proof.
  unfold kept, any_content, is_blank. destruct r as [|c r]; [done|].
  change (list_truthy (c :: r)) with true. rewrite andb_true_l.
  induction (c :: r) as [|d l IH]; simpl; [done|].
  rewrite IH, negb_andb, negb_involutive. done.
Qed.

Lemma filter_kept_not_blank rows :
  Forall (λ r, is_blank r = false) (List.filter kept rows).
Proof.
  apply Forall_forall. intros r [_ Hk]%list_elem_of_In%filter_In.
  rewrite kept_not_blank in Hk. by apply negb_true_iff.
Qed.

Lemma is_blank_lookup r i cell :
  is_blank r = true → r !! i = Some cell → strip cell = "".
Proof.
  unfold is_blank. rewrite forallb_forall. intros Hr Hi.
  apply str_truthy_false, negb_true_iff, Hr.
  apply list_elem_of_In. by eapply list_elem_of_lookup_2.
Qed.

Lemma is_blank_default r i :
  is_blank r = true → strip (default "" (r !! i)) = "".
Proof.
  intros Hr. destruct (r !! i) as [cell|] eqn:Hi; simpl; [|done].
  by eapply is_blank_lookup.
Qed.

Lemma not_blank_cell r :
  is_blank r = false → ∃ i cell, r !! i = Some cell ∧ str_truthy (strip cell) = true.
Proof.
  unfold is_blank. induction r as [|c r IH]; simpl; [done|].
  destruct (str_truthy (strip c)) eqn:Hc; simpl.
  - intros _. by exists 0, c.
  - intros (i & cell & Hi & Hcell)%IH. by exists (S i), cell.
Qed.

Lemma cell_not_blank (r : row) i cell :
  r !! i = Some cell → str_truthy (strip cell) = true → is_blank r = false.
Proof.
  intros Hi Hc. destruct (is_blank r) eqn:Hr; [|done].
  rewrite (is_blank_lookup _ _ _ Hr Hi) in Hc. done.
Qed.

End Blank.

(** ** Console computations *)

Section IO.

Lemma bind_Some {A B} (m : io A) (k : A → io B) w b w' :
  bind m k w = Some (b, w') ↔
  ∃ a w1, m w = Some (a, w1) ∧ k a w1 = Some (b, w').
Proof.
  unfold bind. split.
  - destruct (m w) as [[a w1]|]; [|done]. intros Hk. by exists a, w1.
  - intros (a & w1 & -> & Hk). done.
Qed.

Lemma ret_Some {A} (a b : A) w w' : ret a w = Some (b, w') ↔ a = b ∧ w = w'.
Proof. unfold ret. split; [by intros [= -> ->]|by intros [-> ->]]. Qed.

Lemma for_each_app {X S} (xs ys : list X) (body : X → S → io S) s w :
  for_each (xs ++ ys) body s w =
  bind (for_each xs body s) (for_each ys body) w.
Proof.
  revert s w. induction xs as [|x xs IH]; intros s w; simpl; [done|].
  unfold bind in *. destruct (body x s w) as [[s1 w1]|]; [|done]. apply IH.
Qed.

(** Two loop bodies that agree on the visited elements give the same loop. *)
Lemma for_each_ext {X S} (xs : list X) (body1 body2 : X → S → io S) s w :
  (∀ x s w, x ∈ xs → body1 x s w = body2 x s w) →
  for_each xs body1 s w = for_each xs body2 s w.
Proof.
  revert s w. induction xs as [|x xs IH]; intros s w Hb; simpl; [done|].
  unfold bind. rewrite Hb by left.
  destruct (body2 x s w) as [[s1 w1]|]; [|done].
  apply IH. intros. apply Hb. by right.
Qed.

(** Loop invariants: a reflexive and transitive relation between the state
    and console before and after, established by every iteration. *)
Lemma for_each_ind {X S} (P : S → world → S → world → Prop)
    (xs : list X) (body : X → S → io S) :
  (∀ s w, P s w s w) →
  (∀ s1 w1 s2 w2 s3 w3, P s1 w1 s2 w2 → P s2 w2 s3 w3 → P s1 w1 s3 w3) →
  (∀ x s w s' w', x ∈ xs → body x s w = Some (s', w') → P s w s' w') →
  ∀ s w s' w', for_each xs body s w = Some (s', w') → P s w s' w'.
Proof.
  intros Hrefl Htrans. induction xs as [|x xs IH]; intros Hb s w s' w'; simpl.
  - intros [-> ->]%ret_Some. apply Hrefl.
  - intros (s1 & w1 & H1 & H2)%bind_Some.
    eapply Htrans; [eapply Hb; [by left|done]|].
    eapply IH; [|done]. intros. eapply Hb; [by right|done].
Qed.

(** A loop whose iterations never touch the console is a fold. *)
Lemma for_each_pure {X S} (f : X → S → S) (xs : list X)
    (body : X → S → io S) s w :
  (∀ x s w, x ∈ xs → body x s w = Some (f x s, w)) →
  for_each xs body s w = Some (foldl (λ s x, f x s) s xs, w).
Proof.
  revert s. induction xs as [|x xs IH]; intros s Hb; simpl; [done|].
  unfold bind. rewrite Hb by left. apply IH. intros. apply Hb. by right.
Qed.

Lemma read_choice_valid valid_choices lines choice rest :
  read_choice valid_choices lines = Some (choice, rest) →
  choice ∈ valid_choices.
Proof.
  induction lines as [|line lines IH]; simpl; [done|].
  case_bool_decide as Hv; [|done]. by intros [= <- _].
Qed.

(** Lines that are not valid choices are rejected and read past. *)
Lemma read_choice_skip valid_choices junk line rest :
  Forall (λ l, strip l ∉ valid_choices) junk →
  strip line ∈ valid_choices →
  read_choice valid_choices (junk ++ line :: rest) = Some (strip line, rest).
Proof.
  intros Hjunk Hline. induction Hjunk as [|l junk Hl _ IH]; simpl.
  - by rewrite bool_decide_eq_true_2.
  - by rewrite bool_decide_eq_false_2.
Qed.

Lemma get_user_choice_answer prompt valid_choices w choice rest :
  read_choice valid_choices (stdin w) = Some (choice, rest) →
  get_user_choice prompt valid_choices w =
  Some (choice, World rest (trace w ++ [Ask prompt valid_choices])).
Proof. unfold get_user_choice. by intros ->. Qed.

Lemma get_user_choice_inv prompt valid_choices w choice w' :
  get_user_choice prompt valid_choices w = Some (choice, w') →
  ∃ rest, read_choice valid_choices (stdin w) = Some (choice, rest) ∧
          w' = World rest (trace w ++ [Ask prompt valid_choices]).
Proof.
  unfold get_user_choice.
  destruct (read_choice _ _) as [[c rest]|]; [|done].
  intros [= -> <-]. by exists rest.
Qed.

End IO.

(** ** Merging two rows *)

Section Merge.

Lemma row_decisions_app t1 t2 :
  row_decisions (t1 ++ t2) = row_decisions t1 + row_decisions t2.
Proof. unfold row_decisions. by rewrite List.filter_app, length_app. Qed.

Lemma merge_field_auto headers l r i merged w v :
  let lv_clean := strip (default "" (l !! i)) in
  let rv_clean := strip (default "" (r !! i)) in
  (lv_clean = rv_clean ∧ v = lv_clean) ∨
  (lv_clean ≠ "" ∧ rv_clean = "" ∧ v = lv_clean) ∨
  (lv_clean = "" ∧ rv_clean ≠ "" ∧ v = rv_clean) →
  merge_field headers l r i merged w = Some (merged ++ [v], w).
Proof.
  intros lv_clean rv_clean Hcase. unfold merge_field.
  fold lv_clean rv_clean.
  destruct Hcase as [[Heq ->]|[(Hl & Hr & ->)|(Hl & Hr & ->)]].
  - by rewrite bool_decide_eq_true_2.
  - rewrite bool_decide_eq_false_2 by congruence.
    rewrite Hr. by destruct lv_clean.
  - rewrite bool_decide_eq_false_2 by congruence.
    rewrite Hl. by destruct rv_clean.
Qed.

Lemma merge_field_conflict headers l r i merged w choice rest :
  let lv_clean := strip (default "" (l !! i)) in
  let rv_clean := strip (default "" (r !! i)) in
  let header := default ("Column_" +:+ pretty (i + 1)) (headers !! i) in
  lv_clean ≠ "" → rv_clean ≠ "" → lv_clean ≠ rv_clean →
  read_choice field_choices (stdin w) = Some (choice, rest) →
  merge_field headers l r i merged w =
  Some (merged ++ [if bool_decide (choice = "1") then lv_clean else rv_clean],
        World rest (trace w ++ [FieldConflict header lv_clean rv_clean;
                                Ask "Choose" field_choices])).
Proof.
  intros lv_clean rv_clean header Hl Hr Hne Hread. unfold merge_field.
  fold lv_clean rv_clean header.
  rewrite bool_decide_eq_false_2 by done.
  destruct lv_clean; [done|]. destruct rv_clean; [done|]. simpl.
  unfold bind, emit, get_user_choice. simpl. rewrite Hread.
  unfold ret. by rewrite <- app_assoc.
Qed.

Lemma merge_field_inv headers l r i merged w merged' w' :
  merge_field headers l r i merged w = Some (merged', w') →
  ∃ v new, merged' = merged ++ [v] ∧ trace w' = trace w ++ new ∧
           row_decisions new = 0 ∧ field_value l r i v.
Proof.
  unfold merge_field, field_value.
  set (lv_clean := strip (default "" (l !! i))).
  set (rv_clean := strip (default "" (r !! i))).
  case_bool_decide as Heq.
  { intros [<- <-]%ret_Some. exists lv_clean, [].
    rewrite app_nil_r. repeat split; auto; congruence. }
  destruct lv_clean as [|a lv] eqn:Hl, rv_clean as [|b rv] eqn:Hr; simpl.
  - done.
  - intros [<- <-]%ret_Some. eexists _, []. rewrite app_nil_r.
    repeat split; auto; congruence.
  - intros [<- <-]%ret_Some. eexists _, []. rewrite app_nil_r.
    repeat split; auto; congruence.
  - intros (? & w1 & [= <- <-] & (c & w2 & Hc & [<- <-]%ret_Some)%bind_Some)%bind_Some.
    apply get_user_choice_inv in Hc as (rest & _ & ->). simpl.
    eexists _, _. split; [done|].
    split; [symmetry; apply app_assoc|].
    split; [done|]. repeat split; try congruence.
    case_bool_decide; auto.
Qed.

Lemma merge_loop_inv headers l r n : ∀ a merged w merged' w',
  for_each (seq a n) (merge_field headers l r) merged w = Some (merged', w') →
  ∃ cells new, merged' = merged ++ cells ∧ length cells = n ∧
               trace w' = trace w ++ new ∧ row_decisions new = 0 ∧
               ∀ j v, cells !! j = Some v → field_value l r (a + j) v.
Proof.
  induction n as [|n IH]; intros a merged w merged' w'; simpl.
  - intros [<- <-]%ret_Some. exists [], []. rewrite !app_nil_r.
    do 4 (split; [done|]). intros j v. by rewrite lookup_nil.
  - intros (m1 & w1 & H1 & H2)%bind_Some.
    apply merge_field_inv in H1 as (v & new1 & -> & Ht1 & Hd1 & Hv).
    apply IH in H2 as (cells & new2 & -> & Hlen & Ht2 & Hd2 & Hcells).
    exists (v :: cells), (new1 ++ new2).
    rewrite <- app_assoc. split; [done|]. split; [simpl; lia|].
    split; [by rewrite Ht2, Ht1, app_assoc|].
    split; [rewrite row_decisions_app; lia|].
    intros [|j] v'; simpl.
    + intros [= <-]. by rewrite Nat.add_0_r.
    + intros Hj. replace (a + S j) with (S a + j) by lia. by apply Hcells.
Qed.

Lemma row_truthy_Some (r : row) : row_truthy (Some r) = list_truthy r.
Proof. by destruct r. Qed.

(** What [merge_rows_enhanced] returns, by the four branches. *)
Lemma merge_rows_inv headers lrow rrow w res w' :
  merge_rows_enhanced headers lrow rrow w = Some (res, w') →
  (∃ new, trace w' = trace w ++ new ∧ row_decisions new = 0) ∧
  ((row_truthy lrow = false ∧ row_truthy rrow = false ∧ res = None) ∨
   (row_truthy lrow = false ∧ row_truthy rrow = true ∧ res = rrow ∧ w' = w) ∨
   (row_truthy lrow = true ∧ row_truthy rrow = false ∧ res = lrow ∧ w' = w) ∨
   (∃ l r m, lrow = Some l ∧ rrow = Some r ∧ res = Some m ∧
             list_truthy l = true ∧ list_truthy r = true ∧
             length m = max (length l) (length r) ∧
             ∀ j v, m !! j = Some v → field_value l r j v)).
Proof.
  unfold merge_rows_enhanced.
  destruct (row_truthy lrow) eqn:Hl, (row_truthy rrow) eqn:Hr; simpl.
  - intros (m & w1 & Hloop & [<- <-]%ret_Some)%bind_Some.
    apply merge_loop_inv in Hloop as (cells & new & -> & Hlen & Ht & Hd & Hc).
    split; [by exists new|]. do 3 right.
    destruct lrow as [l|]; [|done]. destruct rrow as [r|]; [|done].
    exists l, r, cells. rewrite !row_truthy_Some in *. simpl in *.
    do 6 (split; [done|]). done.
  - intros [<- <-]%ret_Some. split; [exists []; by rewrite app_nil_r|].
    right; right; left. done.
  - intros [<- <-]%ret_Some. split; [exists []; by rewrite app_nil_r|].
    right; left. done.
  - intros [<- <-]%ret_Some. split; [exists []; by rewrite app_nil_r|].
    left. done.
Qed.

End Merge.

(** ** Field reconciliation (claims C3, C4, C8) *)

Section Fields.

Lemma pad_length n (r : row) : (length r ≤ n)%nat → length (pad n r) = n.
Proof. intros Hn. unfold pad. rewrite length_app, length_replicate. lia. Qed.

Lemma pad_default n (r : row) i :
  default "" (pad n r !! i) = default "" (r !! i).
Proof.
  unfold pad. destruct (decide (i < length r)) as [Hi|Hi].
  - by rewrite lookup_app_l.
  - rewrite lookup_app_r, (lookup_ge_None_2 r i) by lia. simpl.
    destruct (replicate _ _ !! _) as [x|] eqn:Hx; [|done].
    by apply lookup_replicate in Hx as [-> _].
Qed.

Lemma merge_field_pad headers n l r i merged w :
  merge_field headers (pad n l) (pad n r) i merged w =
  merge_field headers l r i merged w.
Proof. unfold merge_field. by rewrite !pad_default. Qed.

Lemma list_truthy_ne {A} (l : list A) : l ≠ [] → list_truthy l = true.
Proof. by destruct l. Qed.

End Fields.

Section FieldInMerge.

(** A completed merge of two non-empty rows, cut at position [i]: the loop
    over the positions below [i], the loop body at [i], and the loop over the
    positions above [i]; the body's cell is the merged row's cell [i]. *)
Lemma merge_rows_at headers (l r : row) i w res w' :
  l ≠ [] → r ≠ [] → (i < max (length l) (length r))%nat →
  merge_rows_enhanced headers (Some l) (Some r) w = Some (res, w') →
  ∃ m before w_i cell w_i',
    res = Some m ∧
    for_each (seq 0 i) (merge_field headers l r) [] w = Some (before, w_i) ∧
    merge_field headers l r i before w_i = Some (before ++ [cell], w_i') ∧
    for_each (seq (S i) (max (length l) (length r) - S i))
             (merge_field headers l r) (before ++ [cell]) w_i'
    = Some (m, w') ∧
    m !! i = Some cell.
Proof.
  intros Hl Hr Hi. unfold merge_rows_enhanced.
  rewrite !row_truthy_Some, !list_truthy_ne by done. simpl.
  set (len := max (length l) (length r)) in *.
  intros (m & w1 & Hloop & [<- <-]%ret_Some)%bind_Some.
  replace len with (i + S (len - S i)) in Hloop by lia.
  rewrite seq_app, for_each_app in Hloop.
  apply bind_Some in Hloop as (before & w_i & Hpre & Hloop).
  cbn [seq for_each Nat.add] in Hloop.
  apply bind_Some in Hloop as (at_i & w_i' & Hbody & Hpost).
  pose proof Hpre as Hpre'.
  apply merge_loop_inv in Hpre' as (cells & _ & Hbefore & Hlen & _).
  pose proof Hbody as Hbody'.
  apply merge_field_inv in Hbody' as (cell & _ & -> & _).
  pose proof Hpost as Hpost'.
  apply merge_loop_inv in Hpost' as (cells' & _ & -> & _).
  exists (((before ++ [cell]) ++ cells')), before, w_i, cell, w_i'.
  do 4 (split; [done|]).
  simpl in Hbefore. subst before.
  rewrite <- app_assoc, lookup_app_r by lia.
  by replace (i - length cells) with 0 by lia.
Qed.

(** The loop body at a conflicting position returns only by reading a valid
    field answer. *)
Lemma merge_field_conflict_inv headers l r i merged w merged' w' :
  let lv_clean := strip (default "" (l !! i)) in
  let rv_clean := strip (default "" (r !! i)) in
  let header := default ("Column_" +:+ pretty (i + 1)) (headers !! i) in
  lv_clean ≠ "" → rv_clean ≠ "" → lv_clean ≠ rv_clean →
  merge_field headers l r i merged w = Some (merged', w') →
  ∃ choice rest,
    read_choice field_choices (stdin w) = Some (choice, rest) ∧
    merged' = merged ++ [if bool_decide (choice = "1") then lv_clean
                         else rv_clean] ∧
    w' = World rest (trace w ++ [FieldConflict header lv_clean rv_clean;
                                 Ask "Choose" field_choices]).
Proof.
  intros lv_clean rv_clean header Hl Hr Hne.
  destruct (read_choice field_choices (stdin w)) as [[choice rest]|] eqn:Hread.
  - rewrite (merge_field_conflict headers l r i merged w choice rest) by done.
    intros [= <- <-]. by exists choice, rest.
  - unfold merge_field. fold lv_clean rv_clean.
    rewrite bool_decide_eq_false_2 by done.
    destruct lv_clean; [done|]. destruct rv_clean; [done|]. simpl.
    unfold bind, emit, get_user_choice. simpl. by rewrite Hread.
Qed.

End FieldInMerge.

(** C3 — non-empty wins.  At a field position where the trimmed local and
    remote values are equal, or exactly one of them is empty, the loop body of
    [merge_rows_enhanced] appends the common, respectively the non-empty,
    trimmed value and leaves the console untouched (no line read, nothing
    added to the trace, so no decision is requested).  Every completed merge
    of two present rows returns a row whose cell at that position is that
    value, and the merge passes that position without touching the console:
    the positions above it continue on the very console the positions below
    it have left. *)
Theorem non_empty_wins headers l r i v :
  let lv_clean := strip (default "" (l !! i)) in
  let rv_clean := strip (default "" (r !! i)) in
  (lv_clean = rv_clean ∧ v = lv_clean) ∨
  (lv_clean ≠ "" ∧ rv_clean = "" ∧ v = lv_clean) ∨
  (lv_clean = "" ∧ rv_clean ≠ "" ∧ v = rv_clean) →
  (∀ merged w,
     merge_field headers l r i merged w = Some (merged ++ [v], w)) ∧
  (∀ w res w',
     l ≠ [] → r ≠ [] → i < max (length l) (length r) →
     merge_rows_enhanced headers (Some l) (Some r) w = Some (res, w') →
     ∃ m before w_i,
       res = Some m ∧ m !! i = Some v ∧
       for_each (seq 0 i) (merge_field headers l r) [] w = Some (before, w_i) ∧
       for_each (seq (S i) (max (length l) (length r) - S i))
                (merge_field headers l r) (before ++ [v]) w_i
       = Some (m, w')).
Proof.
  intros lv_clean rv_clean Hcase.
  assert (∀ merged w,
            merge_field headers l r i merged w = Some (merged ++ [v], w))
    as Hbody by (intros; by apply merge_field_auto).
  split; [exact Hbody|].
  intros w res w' Hl Hr Hi Hrun.
  destruct (merge_rows_at headers l r i w res w' Hl Hr Hi Hrun)
    as (m & before & w_i & cell & w_i' & -> & Hpre & Hat & Hpost & Hcell).
  rewrite Hbody in Hat. injection Hat as Hc <-.
  apply app_inv_head in Hc. injection Hc as <-.
  by exists m, before, w_i.
Qed.

(** The row ["a"; " b "] merged with ["a"; ""; "d"]: a run that returns, and
    its cell 1. *)
Lemma non_empty_wins_witness :
  (∀ merged w,
     merge_field ["Name"; "Age"] ["a"; " b "] ["a"; ""; "d"] 1 merged w
     = Some (merged ++ ["b"], w)) ∧
  ∃ m before w_i,
    Some ["a"; "b"; "d"] = Some m ∧ m !! 1 = Some "b" ∧
    for_each (seq 0 1)
             (merge_field ["Name"; "Age"] ["a"; " b "] ["a"; ""; "d"]) []
             (World ["zz"] [])
    = Some (before, w_i) ∧
    for_each (seq 2 (max (length ["a"; " b "]) (length ["a"; ""; "d"]) - 2))
             (merge_field ["Name"; "Age"] ["a"; " b "] ["a"; ""; "d"])
             (before ++ ["b"]) w_i
    = Some (m, World ["zz"] []).
Proof.
  destruct (non_empty_wins ["Name"; "Age"] ["a"; " b "] ["a"; ""; "d"] 1 "b")
    as [Hbody Hrow].
  { right; left. vm_compute. split; [discriminate|split; reflexivity]. }
  split; [exact Hbody|].
  apply (Hrow (World ["zz"] []) (Some ["a"; "b"; "d"]) (World ["zz"] []));
    [discriminate|discriminate|simpl; lia|vm_compute; reflexivity].
Defined.

(** C4 — field conflict.  At a field position where the trimmed local and
    remote values are both non-empty and differ, the loop body of
    [merge_rows_enhanced] shows the conflict and calls [get_user_choice]
    exactly once, with exactly the two options "1" and "2"; when the operator's
    accepted answer is [choice], the appended cell is the trimmed local value
    for "1" and the trimmed remote value for "2".  Every completed merge of
    two present rows runs that body at the position: on the console left by
    the positions below it the operator's next valid answer is "1" or "2",
    the returned row holds at that position the trimmed local value for "1"
    and the trimmed remote value for "2", and the positions above it continue
    on the console with that answer consumed and exactly the conflict message
    and the one call added to the trace. *)
Theorem field_conflict_asks_once headers l r i :
  let lv_clean := strip (default "" (l !! i)) in
  let rv_clean := strip (default "" (r !! i)) in
  let header := default ("Column_" +:+ pretty (i + 1)) (headers !! i) in
  lv_clean ≠ "" → rv_clean ≠ "" → lv_clean ≠ rv_clean →
  (∀ merged w choice rest,
     read_choice field_choices (stdin w) = Some (choice, rest) →
     ∃ v new,
       merge_field headers l r i merged w
       = Some (merged ++ [v], World rest (trace w ++ new)) ∧
       new = [FieldConflict header lv_clean rv_clean; Ask "Choose" ["1"; "2"]] ∧
       field_decisions new = 1 ∧ row_decisions new = 0 ∧
       (choice = "1" ∨ choice = "2") ∧
       (choice = "1" → v = lv_clean) ∧ (choice = "2" → v = rv_clean)) ∧
  (∀ w res w',
     l ≠ [] → r ≠ [] → i < max (length l) (length r) →
     merge_rows_enhanced headers (Some l) (Some r) w = Some (res, w') →
     ∃ m before w_i choice rest,
       res = Some m ∧
       for_each (seq 0 i) (merge_field headers l r) [] w = Some (before, w_i) ∧
       read_choice field_choices (stdin w_i) = Some (choice, rest) ∧
       (choice = "1" ∨ choice = "2") ∧
       (choice = "1" → m !! i = Some lv_clean) ∧
       (choice = "2" → m !! i = Some rv_clean) ∧
       for_each (seq (S i) (max (length l) (length r) - S i))
                (merge_field headers l r)
                (before ++ [if bool_decide (choice = "1") then lv_clean
                            else rv_clean])
                (World rest
                   (trace w_i ++ [FieldConflict header lv_clean rv_clean;
                                  Ask "Choose" ["1"; "2"]]))
       = Some (m, w')).
Proof.
  intros lv_clean rv_clean header Hl Hr Hne.
  assert (∀ choice, choice ∈ field_choices → choice = "1" ∨ choice = "2")
    as Hcases.
  { intros choice. unfold field_choices.
    rewrite !elem_of_cons, elem_of_nil. tauto. }
  split.
  - intros merged w choice rest Hread.
    eexists _, _. split; [by apply merge_field_conflict|].
    split; [done|]. split; [done|]. split; [done|].
    pose proof (Hcases _ (read_choice_valid _ _ _ _ Hread)) as Hc.
    split; [done|]. split; intros ->; by simpl.
  - intros w res w' Hl' Hr' Hi Hrun.
    destruct (merge_rows_at headers l r i w res w' Hl' Hr' Hi Hrun)
      as (m & before & w_i & cell & w_i' & -> & Hpre & Hat & Hpost & Hcell).
    apply merge_field_conflict_inv in Hat as (choice & rest & Hread & Hc & ->);
      [|done..].
    apply app_inv_head in Hc. injection Hc as ->.
    exists m, before, w_i, choice, rest.
    pose proof (Hcases _ (read_choice_valid _ _ _ _ Hread)) as Hchoice.
    do 4 (split; [done|]).
    split; [intros ->; exact Hcell|]. split; [|exact Hpost].
    intros ->. exact Hcell.
Qed.

(** The row ["a"; "b"] merged with ["a"; "c"; "d"], the operator mistyping
    once and then answering "2". *)
Lemma field_conflict_asks_once_witness :
  (∀ merged w choice rest,
     read_choice field_choices (stdin w) = Some (choice, rest) →
     ∃ v new,
       merge_field ["Name"] ["a"; "b"] ["a"; "c"; "d"] 1 merged w
       = Some (merged ++ [v], World rest (trace w ++ new)) ∧
       new = [FieldConflict "Column_2" "b" "c"; Ask "Choose" ["1"; "2"]] ∧
       field_decisions new = 1 ∧ row_decisions new = 0 ∧
       (choice = "1" ∨ choice = "2") ∧
       (choice = "1" → v = "b") ∧ (choice = "2" → v = "c")) ∧
  ∃ m before w_i choice rest,
    Some ["a"; "c"; "d"] = Some m ∧
    for_each (seq 0 1) (merge_field ["Name"] ["a"; "b"] ["a"; "c"; "d"]) []
             (World ["x"; " 2 "; "1"] [])
    = Some (before, w_i) ∧
    read_choice field_choices (stdin w_i) = Some (choice, rest) ∧
    (choice = "1" ∨ choice = "2") ∧
    (choice = "1" → m !! 1 = Some "b") ∧
    (choice = "2" → m !! 1 = Some "c") ∧
    for_each (seq 2 (max (length ["a"; "b"]) (length ["a"; "c"; "d"]) - 2))
             (merge_field ["Name"] ["a"; "b"] ["a"; "c"; "d"])
             (before ++ [if bool_decide (choice = "1") then "b" else "c"])
             (World rest
                (trace w_i ++ [FieldConflict "Column_2" "b" "c";
                               Ask "Choose" ["1"; "2"]]))
    = Some (m, World ["1"] [FieldConflict "Column_2" "b" "c";
                            Ask "Choose" ["1"; "2"]]).
Proof.
  destruct (field_conflict_asks_once ["Name"] ["a"; "b"] ["a"; "c"; "d"] 1)
    as [Hbody Hrow]; [vm_compute; congruence..|].
  split; [exact Hbody|].
  apply (Hrow (World ["x"; " 2 "; "1"] []) (Some ["a"; "c"; "d"])
              (World ["1"] [FieldConflict "Column_2" "b" "c";
                            Ask "Choose" ["1"; "2"]]));
    [discriminate|discriminate|simpl; lia|vm_compute; reflexivity].
Defined.

(** C8 — padding of ragged rows.  The per-field loop reads a missing cell as
    the empty string, so running it on two rows is running it on the rows
    padded with empty-string cells; when both rows are present (they pass the
    [not lrow] / [not rrow] tests), merging them is the same computation as
    merging the two rows padded to [max(len(local), len(remote))], and the
    merged row has that width.  For local ["a","b"] and remote ["a","c","d"],
    the third position compares "" with "d" and takes "d" without touching the
    console, and the merged row is ["a", v, "d"] with [v] the operator's
    decision between "b" and "c". *)
Theorem merge_pads_shorter_row :
  (∀ headers l r n xs merged w,
     for_each xs (merge_field headers l r) merged w
     = for_each xs (merge_field headers (pad n l) (pad n r)) merged w) ∧
  (∀ headers l r w,
     l ≠ [] → r ≠ [] →
     let n := max (length l) (length r) in
     length (pad n l) = n ∧ length (pad n r) = n ∧
     merge_rows_enhanced headers (Some l) (Some r) w
     = merge_rows_enhanced headers (Some (pad n l)) (Some (pad n r)) w ∧
     ∀ m w', merge_rows_enhanced headers (Some l) (Some r) w = Some (Some m, w') →
             length m = n) ∧
  (∀ headers merged w,
     merge_field headers ["a"; "b"] ["a"; "c"; "d"] 2 merged w
     = Some (merged ++ ["d"], w)) ∧
  (∀ headers choice rest w,
     read_choice field_choices (stdin w) = Some (choice, rest) →
     merge_rows_enhanced headers (Some ["a"; "b"]) (Some ["a"; "c"; "d"]) w
     = Some (Some ["a"; if bool_decide (choice = "1") then "b" else "c"; "d"],
             World rest
               (trace w ++ [FieldConflict (default "Column_2" (headers !! 1))
                                          "b" "c";
                            Ask "Choose" field_choices]))).
Proof.
  split; [|split; [|split]].
  - intros headers l r n xs merged w. apply for_each_ext.
    intros. symmetry. apply merge_field_pad.
  - intros headers l r w Hl Hr n.
    assert (length (pad n l) = n) as Hpl by (apply pad_length; lia).
    assert (length (pad n r) = n) as Hpr by (apply pad_length; lia).
    split; [done|]. split; [done|]. split.
    + unfold merge_rows_enhanced.
      assert (pad n l ≠ []) as Hl' by (intros E; destruct l; [done|]; by rewrite E in Hpl).
      assert (pad n r ≠ []) as Hr' by (intros E; destruct r; [done|]; by rewrite E in Hpr).
      rewrite !row_truthy_Some, !list_truthy_ne by done. simpl.
      rewrite Hpl, Hpr, Nat.max_id. fold n. unfold bind.
      rewrite (for_each_ext _ (merge_field headers (pad n l) (pad n r))
                 (merge_field headers l r)); [done|].
      intros. apply merge_field_pad.
    + intros m w' Hrun. apply merge_rows_inv in Hrun as [_ Hres].
      rewrite !row_truthy_Some, !list_truthy_ne in Hres by done.
      destruct Hres as [(? & _)|[(? & _)|[(_ & ? & _)|Hres]]]; try done.
      by destruct Hres as (? & ? & ? & [= <-] & [= <-] & [= <-] & _ & _ & Hlen & _).
  - intros headers merged w. apply merge_field_auto. right; right.
    vm_compute. split; [done|]. split; [discriminate|done].
  - intros headers choice rest w Hread. unfold merge_rows_enhanced. simpl.
    unfold bind at 1 2.
    rewrite (merge_field_auto headers _ _ 0 [] w "a") by (left; by vm_compute).
    unfold bind at 1.
    rewrite (merge_field_conflict headers _ _ 1 _ w choice rest)
      by (done || by vm_compute).
    unfold bind at 1.
    rewrite (merge_field_auto headers _ _ 2 _ _ "d")
      by (right; right; vm_compute; split; [done|split; [discriminate|done]]).
    simpl. unfold ret. done.
Qed.

Lemma merge_pads_shorter_row_witness :
  merge_rows_enhanced ["Name"] (Some ["a"; "b"]) (Some ["a"; "c"; "d"])
                      (World ["2"] [])
  = merge_rows_enhanced ["Name"] (Some ["a"; "b"; ""]) (Some ["a"; "c"; "d"])
                        (World ["2"] []) ∧
  merge_rows_enhanced ["Name"] (Some ["a"; "b"]) (Some ["a"; "c"; "d"])
                      (World ["2"] [])
  = Some (Some ["a"; "c"; "d"],
          World [] [FieldConflict "Column_2" "b" "c"; Ask "Choose" ["1"; "2"]]).
Proof.
  destruct merge_pads_shorter_row as (_ & Hpad & _ & Hscenario). split.
  - refine (proj1 (proj2 (proj2
      (Hpad ["Name"] ["a"; "b"] ["a"; "c"; "d"] (World ["2"] []) _ _))));
      discriminate.
  - apply (Hscenario ["Name"] "2" [] (World ["2"] [])). reflexivity.
Defined.

(** ** One positional index of a sheet *)

Section Rows.

Context (sheet : string) (headers : list string).
Context (local_rows remote_rows : list row).

Local Abbreviation step := (row_step sheet headers local_rows remote_rows).

Lemma row_choices_cases choice :
  choice ∈ row_choices →
  choice = "1" ∨ choice = "2" ∨ choice = "3" ∨ choice = "4" ∨ choice = "s".
Proof.
  unfold row_choices. rewrite !elem_of_cons, elem_of_nil. tauto.
Qed.

(** Equal rows: kept verbatim when they have content, no console access. *)
Lemma row_step_equal i resolved_rows sheet_conflicts w :
  local_rows !! i = remote_rows !! i →
  step i (resolved_rows, sheet_conflicts) w =
  Some ((resolved_rows ++
           (if row_truthy (local_rows !! i)
               && any_content (default [] (local_rows !! i))
            then option_list (local_rows !! i) else []),
         sheet_conflicts), w).
Proof.
  intros Heq. unfold row_step. rewrite bool_decide_eq_true_2 by done.
  destruct (_ && _); [done|]. by rewrite app_nil_r.
Qed.

(** Differing rows: the conflict is counted and shown, the operator is
    asked, and the accepted answer selects the branch. *)
Lemma row_step_conflict i resolved_rows sheet_conflicts w choice rest :
  local_rows !! i ≠ remote_rows !! i →
  read_choice row_choices (stdin w) = Some (choice, rest) →
  let lrow := local_rows !! i in
  let rrow := remote_rows !! i in
  let w2 := World rest (trace w ++ [Display sheet i headers lrow rrow;
                                    Ask row_prompt row_choices]) in
  step i (resolved_rows, sheet_conflicts) w =
  (if bool_decide (choice = "1") && row_truthy lrow
   then ret (append_row resolved_rows lrow, S sheet_conflicts)
   else if bool_decide (choice = "2") && row_truthy rrow
   then ret (append_row resolved_rows rrow, S sheet_conflicts)
   else if bool_decide (choice = "3") then
     let! merged := merge_rows_enhanced headers lrow rrow in
     if row_truthy merged
     then ret (append_row resolved_rows merged, S sheet_conflicts)
     else ret (resolved_rows, S sheet_conflicts)
   else if bool_decide (choice = "4") then
     let! merged := merge_rows_enhanced headers rrow lrow in
     if row_truthy merged
     then ret (append_row resolved_rows merged, S sheet_conflicts)
     else ret (resolved_rows, S sheet_conflicts)
   else ret (resolved_rows, S sheet_conflicts)) w2.
Proof.
  intros Hne Hread lrow rrow w2. unfold row_step.
  rewrite bool_decide_eq_false_2 by done.
  unfold bind at 1, display_conflict_detailed, emit.
  unfold bind at 1, get_user_choice. simpl. rewrite Hread.
  subst w2 lrow rrow. by rewrite <- app_assoc.
Qed.

(** Every iteration only appends rows and events; the conflict count grows
    by the number of row-level decisions, which is one exactly when the two
    rows differ. *)
Lemma row_step_inv i resolved_rows sheet_conflicts w rows' conflicts' w' :
  step i (resolved_rows, sheet_conflicts) w = Some ((rows', conflicts'), w') →
  ∃ extra new,
    rows' = resolved_rows ++ extra ∧ trace w' = trace w ++ new ∧
    conflicts' = sheet_conflicts + row_decisions new ∧
    row_decisions new
    = (if bool_decide (local_rows !! i ≠ remote_rows !! i) then 1 else 0).
Proof.
  destruct (decide (local_rows !! i = remote_rows !! i)) as [Heq|Hne].
  { rewrite row_step_equal by done. intros [= <- <- <-].
    eexists _, []. split; [reflexivity|]. split; [by rewrite app_nil_r|].
    rewrite bool_decide_eq_false_2 by tauto.
    change (row_decisions []) with 0. split; [lia|done]. }
  rewrite (bool_decide_eq_true_2 _ Hne).
  destruct (read_choice row_choices (stdin w)) as [[choice rest]|] eqn:Hread.
  2:{ unfold row_step. rewrite bool_decide_eq_false_2 by done.
      unfold bind, display_conflict_detailed, emit, get_user_choice.
      simpl. by rewrite Hread. }
  rewrite (row_step_conflict _ _ _ _ _ _ Hne Hread). cbv zeta.
  set (shown := [Display sheet i headers (local_rows !! i) (remote_rows !! i);
                 Ask row_prompt row_choices]).
  assert (∀ lrow rrow (w2 : world) rows' conflicts' w',
    trace w2 = trace w ++ shown →
    (let! merged := merge_rows_enhanced headers lrow rrow in
     if row_truthy merged
     then ret (append_row resolved_rows merged, S sheet_conflicts)
     else ret (resolved_rows, S sheet_conflicts)) w2
    = Some ((rows', conflicts'), w') →
    ∃ extra new,
      rows' = resolved_rows ++ extra ∧ trace w' = trace w ++ new ∧
      conflicts' = sheet_conflicts + row_decisions new ∧
      row_decisions new = 1) as Hmerge.
  { clear. intros lrow rrow w2 rows' conflicts' w' Hw2.
    intros (merged & w3 & Hm & Hret)%bind_Some.
    apply merge_rows_inv in Hm as [(new & Ht & Hd) _].
    exists (if row_truthy merged then option_list merged else []),
           (shown ++ new).
    rewrite row_decisions_app, Hd. change (row_decisions shown) with 1.
    destruct (row_truthy merged);
      apply ret_Some in Hret as [[= <- <-] <-];
      rewrite ?app_nil_r, Ht, Hw2, <- app_assoc;
      repeat split; auto; lia. }
  assert (∀ extra rows' conflicts' w',
    ret (resolved_rows ++ extra, S sheet_conflicts)
        (World rest (trace w ++ shown)) = Some ((rows', conflicts'), w') →
    ∃ extra new,
      rows' = resolved_rows ++ extra ∧ trace w' = trace w ++ new ∧
      conflicts' = sheet_conflicts + row_decisions new ∧
      row_decisions new = 1) as Hret.
  { clear. intros extra rows' conflicts' w' [[= <- <-] <-]%ret_Some.
    exists extra, shown. change (row_decisions shown) with 1.
    repeat split; auto; lia. }
  unfold append_row.
  repeat (match goal with
          | |- context [if ?b then _ else _] => destruct b
          end; simpl);
    try (by apply Hret); try (by apply Hmerge).
  rewrite <- (app_nil_r resolved_rows) at 1. apply Hret.
Qed.

End Rows.

(** ** The row loop of one sheet *)

Section Sheets.

Context (sheet : string) (headers : list string).
Context (local_rows remote_rows : list row).

Local Abbreviation step := (row_step sheet headers local_rows remote_rows).
Local Abbreviation differ :=
  (λ i, bool_decide (local_rows !! i ≠ remote_rows !! i)).

Lemma rows_loop_inv xs : ∀ resolved_rows sheet_conflicts w rows' conflicts' w',
  for_each xs step (resolved_rows, sheet_conflicts) w
  = Some ((rows', conflicts'), w') →
  ∃ extra new,
    rows' = resolved_rows ++ extra ∧ trace w' = trace w ++ new ∧
    conflicts' = sheet_conflicts + row_decisions new ∧
    row_decisions new = length (List.filter differ xs).
Proof.
  induction xs as [|i xs IH]; intros rr k w rr' k' w'; simpl.
  - intros [[= <- <-] <-]%ret_Some. exists [], []. rewrite !app_nil_r.
    change (row_decisions []) with 0. repeat split; auto.
  - intros ([rr1 k1] & w1 & H1 & H2)%bind_Some.
    apply row_step_inv in H1 as (e1 & n1 & -> & Ht1 & -> & Hd1).
    apply IH in H2 as (e2 & n2 & -> & Ht2 & -> & Hd2).
    exists (e1 ++ e2), (n1 ++ n2).
    rewrite row_decisions_app, Ht2, Ht1, <- !app_assoc.
    split; [done|]. split; [done|]. split; [lia|].
    rewrite Hd1, Hd2. by destruct (bool_decide _).
Qed.

(** An operator who skips every conflict always gets a result. *)
Lemma rows_loop_skip_all xs rest : ∀ resolved_rows sheet_conflicts w,
  stdin w = replicate (length (List.filter differ xs)) "s" ++ rest →
  ∃ rows' w',
    for_each xs step (resolved_rows, sheet_conflicts) w
    = Some ((rows', sheet_conflicts + length (List.filter differ xs)), w') ∧
    stdin w' = rest.
Proof.
  induction xs as [|i xs IH]; intros rr k w Hin.
  - exists rr, w. simpl in *. by rewrite Nat.add_0_r.
  - change (for_each (i :: xs) step (rr, k) w)
      with (bind (step i (rr, k)) (for_each xs step) w).
    unfold bind.
    destruct (decide (local_rows !! i = remote_rows !! i)) as [Heq|Hne].
    + assert (List.filter differ (i :: xs) = List.filter differ xs) as Hf.
      { simpl. by rewrite bool_decide_eq_false_2 by tauto. }
      rewrite Hf in *. rewrite row_step_equal by done. by apply IH.
    + assert (List.filter differ (i :: xs) = i :: List.filter differ xs) as Hf.
      { simpl. by rewrite bool_decide_eq_true_2. }
      rewrite Hf in *. simpl in Hin.
      rewrite (row_step_conflict _ _ _ _ _ _ _ _ "s"
                 (replicate (length (List.filter differ xs)) "s" ++ rest))
        by (done || by rewrite Hin).
      simpl. unfold ret.
      destruct (IH rr (S k) (World (replicate (length (List.filter differ xs)) "s" ++ rest)
         (trace w ++ [Display sheet i headers (local_rows !! i) (remote_rows !! i);
                      Ask row_prompt row_choices])))
        as (rr' & w' & -> & Hw'); [done|].
      exists rr', w'. split; [|done]. simpl length.
      by rewrite Nat.add_succ_r.
Qed.

End Sheets.

Lemma compare_sheet_inv sheet local_sheet remote_sheet w entry n w' :
  compare_sheet sheet local_sheet remote_sheet w = Some ((entry, n), w') →
  let headers :=
    if list_truthy (sheet_headers local_sheet) then sheet_headers local_sheet
    else sheet_headers remote_sheet in
  let local_rows := sheet_rows local_sheet in
  let remote_rows := sheet_rows remote_sheet in
  ∃ resolved_rows,
    for_each (seq 0 (max (length local_rows) (length remote_rows)))
             (row_step sheet headers local_rows remote_rows) ([], 0) w
    = Some ((resolved_rows, n), w') ∧
    entry = Sheet headers (List.filter kept resolved_rows).
Proof.
  unfold compare_sheet.
  intros ([rr k] & w1 & Hloop & [[= <- <-] <-]%ret_Some)%bind_Some.
  by exists rr.
Qed.

(** C5 — conflict count and decision count.  Whenever the reconciliation of
    a sheet completes, the reported per-sheet conflict count equals the number
    of row-level decisions requested from the operator during it, and both
    equal the number of positional indices at which the two sheets differ. *)
Theorem conflict_count_is_decision_count
    sheet local_sheet remote_sheet w entry n w' :
  compare_sheet sheet local_sheet remote_sheet w = Some ((entry, n), w') →
  ∃ new,
    trace w' = trace w ++ new ∧
    row_decisions new = n ∧
    n = length (diverging (sheet_rows local_sheet) (sheet_rows remote_sheet)).
Proof.
  intros (rr & Hloop & _)%compare_sheet_inv.
  apply rows_loop_inv in Hloop as (extra & new & _ & Ht & Hn & Hd).
  exists new. unfold diverging. split; [done|]. split; lia.
Qed.

(** The theorem at sheets with 0, 1 and 2 diverging rows. *)
Lemma conflict_count_is_decision_count_witness :
  (∃ new, [] = [] ++ new ∧ row_decisions new = 0 ∧
          0 = length (diverging [["x"; "1"]; ["y"; "2"]] [["x"; "1"]; ["y"; "2"]])) ∧
  (∃ new,
     [Display "S" 1 ["K"; "V"] (Some ["y"; "2"]) (Some ["y"; "3"]);
      Ask row_prompt row_choices; FieldConflict "V" "2" "3";
      Ask "Choose" field_choices] = [] ++ new ∧
     row_decisions new = 1 ∧
     1 = length (diverging [["x"; "1"]; ["y"; "2"]] [["x"; "1"]; ["y"; "3"]])) ∧
  (∃ new,
     [Display "S" 0 ["K"; "V"] (Some ["x"; "1"]) (Some ["z"; "1"]);
      Ask row_prompt row_choices;
      Display "S" 2 ["K"; "V"] None (Some ["w"; "4"]);
      Ask row_prompt row_choices] = [] ++ new ∧
     row_decisions new = 2 ∧
     2 = length (diverging [["x"; "1"]; ["y"; "2"]]
                           [["z"; "1"]; ["y"; "2"]; ["w"; "4"]])).
Proof.
  split; [|split].
  - apply (conflict_count_is_decision_count "S"
             (Sheet ["K"; "V"] [["x"; "1"]; ["y"; "2"]])
             (Sheet ["K"; "V"] [["x"; "1"]; ["y"; "2"]])
             (World [] [])
             (Sheet ["K"; "V"] [["x"; "1"]; ["y"; "2"]]) 0 (World [] [])).
    vm_compute. reflexivity.
  - apply (conflict_count_is_decision_count "S"
             (Sheet ["K"; "V"] [["x"; "1"]; ["y"; "2"]])
             (Sheet ["K"; "V"] [["x"; "1"]; ["y"; "3"]])
             (World ["3"; "2"] [])
             (Sheet ["K"; "V"] [["x"; "1"]; ["y"; "3"]]) 1
             (World [] [Display "S" 1 ["K"; "V"] (Some ["y"; "2"]) (Some ["y"; "3"]);
                        Ask row_prompt row_choices; FieldConflict "V" "2" "3";
                        Ask "Choose" field_choices])).
    vm_compute. reflexivity.
  - apply (conflict_count_is_decision_count "S"
             (Sheet ["K"; "V"] [["x"; "1"]; ["y"; "2"]])
             (Sheet ["K"; "V"] [["z"; "1"]; ["y"; "2"]; ["w"; "4"]])
             (World ["1"; "oops"; "2"] [])
             (Sheet ["K"; "V"] [["x"; "1"]; ["y"; "2"]; ["w"; "4"]]) 2
             (World [] [Display "S" 0 ["K"; "V"] (Some ["x"; "1"]) (Some ["z"; "1"]);
                        Ask row_prompt row_choices;
                        Display "S" 2 ["K"; "V"] None (Some ["w"; "4"]);
                        Ask row_prompt row_choices])).
    vm_compute. reflexivity.
Defined.

(** ** Rows that leave the resolved sheet (claims C9, C10, C1) *)

Section Dropped.

Lemma lookup_absent (rows : list row) i :
  (length rows ≤ i)%nat → row_truthy (rows !! i) = false.
Proof. intros Hi. by rewrite lookup_ge_None_2. Qed.

Lemma not_blank_truthy (r : row) :
  is_blank r = false → row_truthy (Some r) = true.
Proof. by destruct r. Qed.

Lemma is_blank_replicate n : is_blank (replicate n "") = true.
Proof. unfold is_blank. induction n as [|n IH]; [done|]. exact IH. Qed.

(** The field loop on two blank rows fills in empty cells silently. *)
Lemma merge_loop_blank headers l r xs : ∀ merged w,
  is_blank l = true → is_blank r = true →
  for_each xs (merge_field headers l r) merged w
  = Some (merged ++ replicate (length xs) "", w).
Proof.
  induction xs as [|i xs IH]; intros merged w Hl Hr; simpl.
  - by rewrite app_nil_r.
  - unfold bind. rewrite (merge_field_auto _ _ _ _ _ _ "").
    + rewrite IH by done. by rewrite <- app_assoc.
    + left. by rewrite !is_blank_default.
Qed.

(** Merging two blank rows needs no decision and gives no content. *)
Lemma merge_rows_blank headers lrow rrow w :
  (∀ l, lrow = Some l → is_blank l = true) →
  (∀ r, rrow = Some r → is_blank r = true) →
  ∃ res, merge_rows_enhanced headers lrow rrow w = Some (res, w) ∧
         List.filter kept (option_list res) = [].
Proof.
  intros Hl Hr. unfold merge_rows_enhanced.
  assert (∀ o : option row, (∀ x, o = Some x → is_blank x = true) →
            List.filter kept (option_list o) = []) as Hdrop.
  { intros [x|] Hx; [|done]. simpl. by rewrite kept_not_blank, Hx. }
  destruct (row_truthy lrow) eqn:Tl, (row_truthy rrow) eqn:Tr; simpl.
  - destruct lrow as [l|], rrow as [r|]; try done. simpl.
    unfold bind. rewrite merge_loop_blank by auto. simpl.
    eexists. split; [done|]. simpl.
    by rewrite kept_not_blank, is_blank_replicate.
  - exists lrow. auto.
  - exists rrow. auto.
  - by exists None.
Qed.

(** Merging keeps content: when one of the two rows is not blank, neither
    is the merged row. *)
Lemma merge_rows_not_blank headers lrow rrow w res w' :
  (∃ a, lrow = Some a ∧ is_blank a = false) ∨
  (∃ b, rrow = Some b ∧ is_blank b = false) →
  merge_rows_enhanced headers lrow rrow w = Some (res, w') →
  ∃ m, res = Some m ∧ is_blank m = false.
Proof.
  intros Hside Hrun. apply merge_rows_inv in Hrun as [_ Hres].
  destruct Hres as [(Tl & Tr & _)|[(Tl & _ & -> & _)|[(_ & Tr & -> & _)|Hres]]].
  - destruct Hside as [(a & -> & Ha)|(b & -> & Hb)];
      by rewrite not_blank_truthy in * by done.
  - destruct Hside as [(a & -> & Ha)|(b & -> & Hb)]; [|by exists b].
    by rewrite not_blank_truthy in Tl by done.
  - destruct Hside as [(a & -> & Ha)|(b & -> & Hb)]; [by exists a|].
    by rewrite not_blank_truthy in Tr by done.
  - destruct Hres as (l & r & m & -> & -> & -> & _ & _ & Hlen & Hm).
    exists m. split; [done|].
    assert (∃ j, (j < length m)%nat ∧
              (str_truthy (strip (default "" (l !! j))) = true ∨
               str_truthy (strip (default "" (r !! j))) = true))
      as (j & Hj & Hcontent).
    { destruct Hside as [(a & [= <-] & Ha)|(b & [= <-] & Hb)].
      - apply not_blank_cell in Ha as (j & cell & Hcell & Ht).
        exists j. apply lookup_lt_Some in Hcell as Hlt.
        rewrite Hcell. simpl. split; [lia|by left].
      - apply not_blank_cell in Hb as (j & cell & Hcell & Ht).
        exists j. apply lookup_lt_Some in Hcell as Hlt.
        rewrite Hcell. simpl. split; [lia|by right]. }
    destruct (lookup_lt_is_Some_2 m j Hj) as [v Hv].
    apply (cell_not_blank m j v Hv).
    destruct (Hm j v Hv) as (_ & Hre & Hle & Hor).
    remember (strip (default "" (l !! j))) as lv eqn:El.
    remember (strip (default "" (r !! j))) as rv eqn:Er.
    assert (strip v = v) as ->
      by (destruct Hor as [->| ->]; subst; apply strip_strip).
    destruct lv as [|c1 s1].
    + rewrite (Hle eq_refl). by destruct Hcontent.
    + destruct rv as [|c2 s2]; [by rewrite (Hre eq_refl)|].
      by destruct Hor as [->| ->].
Qed.

End Dropped.

(** C9 — keeping an absent side.  At a conflicting index where the local row
    is absent (the index is beyond the local rows), the answer "1" (keep
    local) appends no row: the loop state afterwards is the one the answer
    "s" (skip) gives, with the conflict counted.  The same holds for "2"
    (keep remote) where the remote row is absent. *)
Theorem keep_absent_side_drops_row
    sheet headers local_rows remote_rows i resolved_rows sheet_conflicts
    choice w rest ws rest_s :
  local_rows !! i ≠ remote_rows !! i →
  (choice = "1" ∧ (length local_rows ≤ i)%nat) ∨
  (choice = "2" ∧ (length remote_rows ≤ i)%nat) →
  read_choice row_choices (stdin w) = Some (choice, rest) →
  read_choice row_choices (stdin ws) = Some ("s", rest_s) →
  let shown :=
    [Display sheet i headers (local_rows !! i) (remote_rows !! i);
     Ask row_prompt row_choices] in
  row_step sheet headers local_rows remote_rows i
           (resolved_rows, sheet_conflicts) w
  = Some ((resolved_rows, S sheet_conflicts), World rest (trace w ++ shown)) ∧
  row_step sheet headers local_rows remote_rows i
           (resolved_rows, sheet_conflicts) ws
  = Some ((resolved_rows, S sheet_conflicts), World rest_s (trace ws ++ shown)).
Proof.
  intros Hne Habsent Hread Hskip shown. split.
  - rewrite (row_step_conflict _ _ _ _ _ _ _ _ _ _ Hne Hread).
    destruct Habsent as [[-> Hi]|[-> Hi]]; rewrite (lookup_absent _ _ Hi); done.
  - by rewrite (row_step_conflict _ _ _ _ _ _ _ _ _ _ Hne Hskip).
Qed.

Lemma keep_absent_side_drops_row_witness :
  row_step "Sheet1" ["Name"] [["Alice"]] [["Alice"]; ["Bob"]] 1
           ([["Alice"]], 0) (World ["1"] [])
  = Some (([["Alice"]], 1),
          World [] ([] ++ [Display "Sheet1" 1 ["Name"] None (Some ["Bob"]);
                           Ask row_prompt row_choices])) ∧
  row_step "Sheet1" ["Name"] [["Alice"]] [["Alice"]; ["Bob"]] 1
           ([["Alice"]], 0) (World ["s"] [])
  = Some (([["Alice"]], 1),
          World [] ([] ++ [Display "Sheet1" 1 ["Name"] None (Some ["Bob"]);
                           Ask row_prompt row_choices])).
Proof.
  apply (keep_absent_side_drops_row "Sheet1" ["Name"] [["Alice"]]
           [["Alice"]; ["Bob"]] 1 [["Alice"]] 0 "1"
           (World ["1"] []) [] (World ["s"] []) []).
  - discriminate.
  - left. split; [reflexivity|]. simpl. lia.
  - reflexivity.
  - reflexivity.
Defined.

(** C10 — two blank rows that are not cell-wise equal.  Such a pair is a
    conflict: it is counted, shown, and a row-level decision is requested;
    whatever the operator answers, every row the iteration appends is blank,
    so the final filter leaves the resolved sheet as it was.  For [" "]
    against [""] the resolved sheet is empty, with one conflict reported,
    under each of the five answers. *)
Theorem blank_pair_is_conflict :
  (∀ sheet headers local_rows remote_rows i l r
     resolved_rows sheet_conflicts w choice rest,
     local_rows !! i = Some l → remote_rows !! i = Some r →
     is_blank l = true → is_blank r = true → l ≠ r →
     read_choice row_choices (stdin w) = Some (choice, rest) →
     ∃ extra,
       row_step sheet headers local_rows remote_rows i
                (resolved_rows, sheet_conflicts) w
       = Some ((resolved_rows ++ extra, S sheet_conflicts),
               World rest (trace w ++ [Display sheet i headers (Some l) (Some r);
                                       Ask row_prompt row_choices])) ∧
       List.filter kept (resolved_rows ++ extra) = List.filter kept resolved_rows) ∧
  (∀ choice,
     choice ∈ row_choices →
     compare_sheet "Sheet1" (Sheet ["Name"] [[" "]]) (Sheet ["Name"] [[""]])
                   (World [choice] [])
     = Some ((Sheet ["Name"] [], 1),
             World [] [Display "Sheet1" 0 ["Name"] (Some [" "]) (Some [""]);
                       Ask row_prompt row_choices])).
Proof.
  split.
  - intros sheet headers local_rows remote_rows i l r rr k w choice rest
           Hl Hr Bl Br Hne Hread.
    assert (local_rows !! i ≠ remote_rows !! i) as Hdiff by congruence.
    rewrite (row_step_conflict _ _ _ _ _ _ _ _ _ _ Hdiff Hread).
    rewrite Hl, Hr. cbv zeta.
    set (w2 := World rest _).
    assert (∀ x : row, is_blank x = true →
              List.filter kept (rr ++ [x]) = List.filter kept rr) as Hdrop.
    { intros x Hx. rewrite List.filter_app. simpl.
      by rewrite kept_not_blank, Hx, app_nil_r. }
    assert (∀ a b : row, is_blank a = true → is_blank b = true →
      ∃ extra,
        (let! merged := merge_rows_enhanced headers (Some a) (Some b) in
         if row_truthy merged then ret (append_row rr merged, S k)
         else ret (rr, S k)) w2 = Some ((rr ++ extra, S k), w2) ∧
        List.filter kept (rr ++ extra) = List.filter kept rr) as Hmerge.
    { intros a b Ba Bb.
      destruct (merge_rows_blank headers (Some a) (Some b) w2)
        as (res & Hres & Hkept); [by intros ? [= <-]..|].
      unfold bind. rewrite Hres.
      destruct (row_truthy res).
      - exists (option_list res). split; [done|].
        by rewrite List.filter_app, Hkept, app_nil_r.
      - exists []. by rewrite app_nil_r. }
    assert (∃ extra, ret (rr, S k) w2 = Some ((rr ++ extra, S k), w2) ∧
              List.filter kept (rr ++ extra) = List.filter kept rr) as Hnone.
    { exists []. by rewrite app_nil_r. }
    apply read_choice_valid, row_choices_cases in Hread
      as [->|[->|[->|[->| ->]]]]; simpl.
    + destruct l as [|c l']; [exact Hnone|].
      exists [c :: l']. split; [done|by apply Hdrop].
    + destruct r as [|c r']; [exact Hnone|].
      exists [c :: r']. split; [done|by apply Hdrop].
    + by apply Hmerge.
    + by apply Hmerge.
    + exact Hnone.
  - intros choice [->|[->|[->|[->| ->]]]]%row_choices_cases;
      vm_compute; reflexivity.
Qed.

Lemma blank_pair_is_conflict_witness :
  ∃ extra,
    row_step "Sheet1" ["Name"] [[" "]] [[""]] 0 ([], 0) (World ["3"] [])
    = Some (([] ++ extra, 1),
            World [] ([] ++ [Display "Sheet1" 0 ["Name"] (Some [" "]) (Some [""]);
                             Ask row_prompt row_choices])) ∧
    List.filter kept ([] ++ extra) = List.filter kept [].
Proof.
  apply (proj1 blank_pair_is_conflict "Sheet1" ["Name"] [[" "]] [[""]] 0
           [" "] [""] [] 0 (World ["3"] []) "3" []);
    try reflexivity.
  discriminate.
Defined.

(** C1 (as stated) fails.  First run: the remote sheet has a row at index 0
    and the local sheet has none, so the pair conflicts; the operator answers
    "1" (keep local), which is not the skip option, and the resolved sheet has
    no row for that index.  Second run: both rows are present and differ, the
    local one is blank; the answer "1" keeps it, and the final filter removes
    it. *)
Lemma conflicting_row_dropped_without_skip :
  "1" ∈ row_choices ∧ "1" ≠ "s" ∧
  (([] : list row) !! 0 ≠ [["Alice"]] !! 0 ∧
   compare_sheet "Sheet1" (Sheet ["Name"] []) (Sheet ["Name"] [["Alice"]])
                 (World ["1"] [])
   = Some ((Sheet ["Name"] [], 1),
           World [] [Display "Sheet1" 0 ["Name"] None (Some ["Alice"]);
                     Ask row_prompt row_choices])) ∧
  ([[" "]] !! 0 ≠ [["Alice"]] !! 0 ∧
   compare_sheet "Sheet1" (Sheet ["Name"] [[" "]]) (Sheet ["Name"] [["Alice"]])
                 (World ["1"] [])
   = Some ((Sheet ["Name"] [], 1),
           World [] [Display "Sheet1" 0 ["Name"] (Some [" "]) (Some ["Alice"]);
                     Ask row_prompt row_choices])).
Proof.
  split; [by vm_compute; left|]. split; [discriminate|].
  split; (split; [discriminate|vm_compute; reflexivity]).
Qed.

(** C1 (amended) — at a conflicting index, an answer other than skip puts the
    kept or merged row into the resolved sheet, at the place of that index,
    provided the row exists and is not blank: for "1" (keep local) the row
    placed is the local row, if it is not blank; for "2" (keep remote) the
    remote row, if it is not blank; for "3" the row [merge_rows_enhanced]
    returns for the local and the remote row, and for "4" the row it returns
    for the remote and the local row, the merge being run on the console left
    by the row-level decision, if at least one of the two rows is not blank.
    [rows_before] are the rows collected from the indices below [i]. *)
Theorem conflicting_row_kept
    sheet local_sheet remote_sheet i w entry n w' rows_before k w1 choice rest :
  let headers :=
    if list_truthy (sheet_headers local_sheet) then sheet_headers local_sheet
    else sheet_headers remote_sheet in
  let local_rows := sheet_rows local_sheet in
  let remote_rows := sheet_rows remote_sheet in
  let local_content := ∃ r, local_rows !! i = Some r ∧ is_blank r = false in
  let remote_content := ∃ r, remote_rows !! i = Some r ∧ is_blank r = false in
  let w2 :=
    World rest (trace w1 ++ [Display sheet i headers (local_rows !! i)
                                     (remote_rows !! i);
                             Ask row_prompt row_choices]) in
  local_rows !! i ≠ remote_rows !! i →
  compare_sheet sheet local_sheet remote_sheet w = Some ((entry, n), w') →
  for_each (seq 0 i) (row_step sheet headers local_rows remote_rows) ([], 0) w
  = Some ((rows_before, k), w1) →
  read_choice row_choices (stdin w1) = Some (choice, rest) →
  choice ≠ "s" →
  (choice = "1" → local_content) →
  (choice = "2" → remote_content) →
  (choice = "3" ∨ choice = "4" → local_content ∨ remote_content) →
  ∃ r post,
    is_blank r = false ∧
    sheet_rows entry = List.filter kept rows_before ++ r :: post ∧
    (choice = "1" → local_rows !! i = Some r) ∧
    (choice = "2" → remote_rows !! i = Some r) ∧
    (choice = "3" →
     ∃ w3, merge_rows_enhanced headers (local_rows !! i) (remote_rows !! i) w2
           = Some (Some r, w3)) ∧
    (choice = "4" →
     ∃ w3, merge_rows_enhanced headers (remote_rows !! i) (local_rows !! i) w2
           = Some (Some r, w3)).
Proof.
  intros headers local_rows remote_rows local_content remote_content w2
         Hne Hrun Hpre Hread Hskip H1 H2 H34.
  apply compare_sheet_inv in Hrun as (rr & Hloop & ->).
  fold headers local_rows remote_rows in Hloop.
  set (len := max (length local_rows) (length remote_rows)) in *.
  assert (i < len)%nat as Hi.
  { destruct (decide (i < len)%nat) as [|Hge]; [done|]. destruct Hne.
    rewrite !lookup_ge_None_2; [done|subst len; lia..]. }
  replace len with (i + S (len - S i)) in Hloop by lia.
  rewrite seq_app, for_each_app in Hloop.
  apply bind_Some in Hloop as (st1 & w1' & Hpre' & Hloop).
  rewrite Hpre in Hpre'. injection Hpre' as <- <-.
  cbn [seq for_each Nat.add] in Hloop.
  apply bind_Some in Hloop as ([rr2 k2] & w2' & Hstep & Hrest).
  apply rows_loop_inv in Hrest as (post & _ & -> & _).
  assert (∃ r, is_blank r = false ∧ rr2 = rows_before ++ [r] ∧
               (choice = "1" → local_rows !! i = Some r) ∧
               (choice = "2" → remote_rows !! i = Some r) ∧
               (choice = "3" →
                ∃ w3, merge_rows_enhanced headers (local_rows !! i)
                                          (remote_rows !! i) w2
                      = Some (Some r, w3)) ∧
               (choice = "4" →
                ∃ w3, merge_rows_enhanced headers (remote_rows !! i)
                                          (local_rows !! i) w2
                      = Some (Some r, w3)))
    as (r & Hr & -> & Hc1 & Hc2 & Hc3 & Hc4).
  { rewrite (row_step_conflict _ _ _ _ _ _ _ _ _ _ Hne Hread) in Hstep.
    cbv zeta in Hstep. fold local_rows remote_rows in Hstep. fold w2 in Hstep.
    assert (∀ lrow rrow (wb : world) rr2 k2,
      (∃ a, lrow = Some a ∧ is_blank a = false) ∨
      (∃ b, rrow = Some b ∧ is_blank b = false) →
      (let! merged := merge_rows_enhanced headers lrow rrow in
       if row_truthy merged then ret (append_row rows_before merged, S k)
       else ret (rows_before, S k)) w2 = Some ((rr2, k2), wb) →
      ∃ r w3, is_blank r = false ∧ rr2 = rows_before ++ [r] ∧
              merge_rows_enhanced headers lrow rrow w2 = Some (Some r, w3))
      as Hmerge.
    { clear. intros lrow rrow wb rr2 k2 Hside.
      intros (merged & w3 & Hm & Hret)%bind_Some.
      destruct (merge_rows_not_blank _ _ _ _ _ _ Hside Hm) as (m & -> & Hb).
      rewrite (not_blank_truthy _ Hb) in Hret.
      apply ret_Some in Hret as [[= <- _] _]. by exists m, w3. }
    apply read_choice_valid, row_choices_cases in Hread
      as [->|[->|[->|[->| ->]]]]; simpl in Hstep; [| | | |done].
    - destruct (H1 eq_refl) as (r & Hl & Hb). rewrite Hl in Hstep.
      rewrite (not_blank_truthy _ Hb) in Hstep.
      apply ret_Some in Hstep as [[= <- _] _]. exists r. by repeat split.
    - destruct (H2 eq_refl) as (r & Hl & Hb). rewrite Hl in Hstep.
      rewrite (not_blank_truthy _ Hb) in Hstep.
      apply ret_Some in Hstep as [[= <- _] _]. exists r. by repeat split.
    - apply Hmerge in Hstep as (r & w3 & Hb & -> & Hm); [|by apply H34; left].
      exists r. do 4 (split; [done|]). split; [by exists w3|done].
    - apply Hmerge in Hstep as (r & w3 & Hb & -> & Hm).
      + exists r. do 5 (split; [done|]). by exists w3.
      + destruct H34 as [?|?]; [by right|by right|by left]. }
  exists r, (List.filter kept post). split; [done|]. split; [|done].
  simpl. rewrite <- app_assoc, !List.filter_app. simpl.
  by rewrite (kept_not_blank r), Hr.
Qed.

(** A merge (answer "3") at index 1; the field conflict is decided for the
    remote value. *)
Lemma conflicting_row_kept_witness :
  ∃ r post,
    is_blank r = false ∧
    sheet_rows (Sheet ["K"; "V"] [["x"; "1"]; ["y"; "3"]; ["z"; "5"]])
    = List.filter kept [["x"; "1"]] ++ r :: post ∧
    ("3" = "1" → [["x"; "1"]; ["y"; "2"]; ["z"; "5"]] !! 1 = Some r) ∧
    ("3" = "2" → [["x"; "1"]; ["y"; "3"]; ["z"; "5"]] !! 1 = Some r) ∧
    ("3" = "3" →
     ∃ w3, merge_rows_enhanced ["K"; "V"] (Some ["y"; "2"]) (Some ["y"; "3"])
             (World ["2"]
                [Display "S" 1 ["K"; "V"] (Some ["y"; "2"]) (Some ["y"; "3"]);
                 Ask row_prompt row_choices])
           = Some (Some r, w3)) ∧
    ("3" = "4" →
     ∃ w3, merge_rows_enhanced ["K"; "V"] (Some ["y"; "3"]) (Some ["y"; "2"])
             (World ["2"]
                [Display "S" 1 ["K"; "V"] (Some ["y"; "2"]) (Some ["y"; "3"]);
                 Ask row_prompt row_choices])
           = Some (Some r, w3)).
Proof.
  apply (conflicting_row_kept "S"
           (Sheet ["K"; "V"] [["x"; "1"]; ["y"; "2"]; ["z"; "5"]])
           (Sheet ["K"; "V"] [["x"; "1"]; ["y"; "3"]; ["z"; "5"]])
           1 (World ["3"; "2"] [])
           (Sheet ["K"; "V"] [["x"; "1"]; ["y"; "3"]; ["z"; "5"]]) 1
           (World [] [Display "S" 1 ["K"; "V"] (Some ["y"; "2"]) (Some ["y"; "3"]);
                      Ask row_prompt row_choices; FieldConflict "V" "2" "3";
                      Ask "Choose" field_choices])
           [["x"; "1"]] 0 (World ["3"; "2"] []) "3" ["2"]).
  - discriminate.
  - vm_compute. reflexivity.
  - vm_compute. reflexivity.
  - vm_compute. reflexivity.
  - discriminate.
  - discriminate.
  - discriminate.
  - intros _. left. exists ["y"; "2"]. split; reflexivity.
Defined.

(** ** The dataset loop (claims C2, C6, C7) *)

Section Datasets.

Lemma omap_lookup_seq (l : list row) n : ∀ a,
  omap (λ i, l !! i) (seq a n) = take n (drop a l).
Proof.
  induction n as [|n IH]; intros a; simpl; [done|].
  destruct (l !! a) as [x|] eqn:Ha.
  - rewrite (drop_S l x a Ha). simpl. by rewrite IH.
  - rewrite IH, !drop_ge, take_nil; [done|..];
      apply lookup_ge_None in Ha; lia.
Qed.

Lemma filter_kept_idemp rows :
  List.filter kept (List.filter kept rows)
  = List.filter (λ r, negb (is_blank r)) rows.
Proof.
  induction rows as [|r rows IH]; simpl; [done|].
  rewrite <- kept_not_blank. destruct (kept r) eqn:Hk; simpl; [|done].
  by rewrite Hk, IH.
Qed.

(** Rows compared with themselves: every iteration is silent. *)
Lemma rows_loop_identical sheet headers rows xs : ∀ resolved_rows k w,
  for_each xs (row_step sheet headers rows rows) (resolved_rows, k) w
  = Some ((resolved_rows ++ List.filter kept (omap (λ i, rows !! i) xs), k), w).
Proof.
  induction xs as [|i xs IH]; intros rr k w.
  - simpl. by rewrite app_nil_r.
  - cbn [for_each]. unfold bind. rewrite row_step_equal by done.
    rewrite IH. simpl.
    destruct (rows !! i) as [r|]; simpl.
    + unfold kept, list_truthy.
      destruct (_ && _); simpl; by rewrite <- ?app_assoc, ?app_nil_r.
    + by rewrite app_nil_r.
Qed.

Lemma compare_sheet_identical sheet s w :
  compare_sheet sheet s s w = Some ((without_blank s, 0), w).
Proof.
  unfold compare_sheet, bind. rewrite Nat.max_id, rows_loop_identical.
  rewrite omap_lookup_seq, drop_0, firstn_all. simpl.
  unfold ret, without_blank. rewrite filter_kept_idemp.
  by destruct (list_truthy (sheet_headers s)).
Qed.

Lemma foldl_insert_lookup (g : string → sheet_t) xs : ∀ (m : dataset) name,
  foldl (λ m x, <[x := g x]> m) m xs !! name
  = if decide (name ∈ xs) then Some (g name) else m !! name.
Proof.
  induction xs as [|x xs IH]; intros m name; cbn [foldl].
  - case_decide as Hin; [by apply elem_of_nil in Hin|done].
  - rewrite IH. destruct (decide (name ∈ xs)) as [Hin|Hout].
    + case_decide as Hc; [done|]. destruct Hc. by right.
    + case_decide as Hc.
      * apply elem_of_cons in Hc as [->|?]; [|done]. apply lookup_insert_eq.
      * apply lookup_insert_ne. intros ->. apply Hc. left.
Qed.

Lemma dataset_loop_identical (D : dataset) xs : ∀ (m : dataset) total w,
  for_each xs (sheet_step D D) (m, total) w
  = Some ((foldl (λ m x, <[x := without_blank (default empty_sheet (D !! x))]> m)
                 m xs, total), w).
Proof.
  induction xs as [|x xs IH]; intros m total w; simpl; [done|].
  unfold bind at 1, sheet_step. unfold bind.
  rewrite compare_sheet_identical. simpl. unfold ret.
  by rewrite Nat.add_0_r, IH.
Qed.

Lemma sheet_step_inv (local_data remote_data : dataset) name
    (m : dataset) total w m' total' w' :
  sheet_step local_data remote_data name (m, total) w = Some ((m', total'), w') →
  ∃ entry n,
    compare_sheet name (default empty_sheet (local_data !! name))
                  (default empty_sheet (remote_data !! name)) w
    = Some ((entry, n), w') ∧
    m' = <[name := entry]> m ∧ total' = total + n.
Proof.
  unfold sheet_step.
  intros ([entry n] & w1 & Hc & [[= <- <-] <-]%ret_Some)%bind_Some.
  by exists entry, n.
Qed.

Lemma dataset_loop_dom (local_data remote_data : dataset) xs :
  ∀ (m : dataset) total w m' total' w',
  for_each xs (sheet_step local_data remote_data) (m, total) w
  = Some ((m', total'), w') →
  dom m' = dom m ∪ list_to_set xs.
Proof.
  induction xs as [|x xs IH]; intros m total w m' total' w'; simpl.
  - intros [[= <- _] _]%ret_Some. by rewrite (right_id_L ∅ (∪)).
  - intros ([m1 t1] & w1 & Hstep & Hrest)%bind_Some.
    apply sheet_step_inv in Hstep as (entry & n & _ & -> & _).
    apply IH in Hrest. rewrite Hrest, dom_insert_L.
    by rewrite (comm_L (∪) {[x]}), <- (assoc_L (∪)).
Qed.

(** A sheet missing on one side is reconciled as an empty sheet there. *)
Lemma sheet_step_default_remote (local_data remote_data : dataset) name x st w :
  remote_data !! name = None →
  sheet_step local_data remote_data x st w
  = sheet_step local_data (<[name := empty_sheet]> remote_data) x st w.
Proof.
  intros Hnone. unfold sheet_step. destruct st as [m total].
  destruct (decide (x = name)) as [->|Hne].
  - by rewrite Hnone, lookup_insert_eq.
  - by rewrite lookup_insert_ne.
Qed.

Lemma sheet_step_default_local (local_data remote_data : dataset) name x st w :
  local_data !! name = None →
  sheet_step local_data remote_data x st w
  = sheet_step (<[name := empty_sheet]> local_data) remote_data x st w.
Proof.
  intros Hnone. unfold sheet_step. destruct st as [m total].
  destruct (decide (x = name)) as [->|Hne].
  - by rewrite Hnone, lookup_insert_eq.
  - by rewrite lookup_insert_ne.
Qed.

End Datasets.

(** C2 — identical input.  Reconciling a dataset against itself, in any
    iteration order of its sheet names, returns on every console: the total
    conflict count is 0, no line is read and nothing is shown or asked (the
    console is unchanged), and the resolved dataset is the input with the
    blank rows of every sheet removed. *)
Theorem identical_input_is_idempotent all_sheets (D : dataset) w :
  enumerates all_sheets D D →
  compare_json_enhanced all_sheets D D w = Some ((without_blank <$> D, 0), w).
Proof.
  intros [_ Hall]. unfold compare_json_enhanced.
  rewrite dataset_loop_identical. do 3 f_equal.
  apply map_eq. intros name.
  rewrite foldl_insert_lookup, lookup_fmap, lookup_empty.
  case_decide as Hin.
  - apply Hall in Hin. rewrite (idemp_L (∪)) in Hin.
    apply elem_of_dom in Hin as [s ->]. done.
  - destruct (D !! name) as [s|] eqn:Hs; [|done].
    destruct Hin. apply Hall. rewrite (idemp_L (∪)).
    apply elem_of_dom. by exists s.
Qed.

Lemma identical_input_is_idempotent_witness :
  compare_json_enhanced ["B"; "A"]
    (<[ "A" := Sheet ["h"] [["x"]; [" "; ""]; ["y"]] ]> {[ "B" := Sheet [] [] ]})
    (<[ "A" := Sheet ["h"] [["x"]; [" "; ""]; ["y"]] ]> {[ "B" := Sheet [] [] ]})
    (World ["1"] [])
  = Some ((without_blank <$>
             <[ "A" := Sheet ["h"] [["x"]; [" "; ""]; ["y"]] ]>
               {[ "B" := Sheet [] [] ]},
           0), World ["1"] []).
Proof.
  apply identical_input_is_idempotent. split.
  - apply (bool_decide_unpack _). vm_compute. reflexivity.
  - intros name. rewrite dom_insert_L, dom_singleton_L.
    rewrite !elem_of_cons, elem_of_nil, !elem_of_union, !elem_of_singleton.
    tauto.
Defined.

(** C6 — no blank row.  In every completed reconciliation, whatever the two
    datasets and the operator's answers, no row of any sheet of the resolved
    dataset is blank. *)
Theorem no_blank_row_in_resolved
    all_sheets (local_data remote_data : dataset) w
    (resolved : dataset) total w' :
  compare_json_enhanced all_sheets local_data remote_data w
  = Some ((resolved, total), w') →
  ∀ name entry,
    resolved !! name = Some entry →
    Forall (λ r, is_blank r = false) (sheet_rows entry).
Proof.
  unfold compare_json_enhanced. intros Hrun.
  pose (inv := λ m : dataset, ∀ name entry, m !! name = Some entry →
                 Forall (λ r, is_blank r = false) (sheet_rows entry)).
  change (inv resolved).
  refine (for_each_ind
            (λ (s : dataset * nat) _ (s' : dataset * nat) _, inv s.1 → inv s'.1)
            all_sheets (sheet_step local_data remote_data)
            _ _ _ (∅, 0) w (resolved, total) w' Hrun _).
  - auto.
  - auto.
  - intros x [m t] w1 [m' t'] w2 _ Hstep Hinv. simpl in *.
    apply sheet_step_inv in Hstep as (entry & n & Hsheet & -> & _).
    apply compare_sheet_inv in Hsheet as (rr & _ & ->).
    intros name entry'. destruct (decide (name = x)) as [->|Hne].
    + rewrite lookup_insert_eq. intros [= <-]. apply filter_kept_not_blank.
    + rewrite lookup_insert_ne by done. apply Hinv.
  - intros name entry. simpl. by rewrite lookup_empty.
Qed.

(** A run through the identical path, a merge, a blank pair, a keep-remote
    and a skipped row. *)
Lemma no_blank_row_in_resolved_witness :
  Forall (λ r, is_blank r = false)
         (sheet_rows (Sheet ["K"; "V"] [["a"; "1"]; ["b"; "3"]; ["e"; "5"]])).
Proof.
  refine (no_blank_row_in_resolved ["S"]
           {[ "S" := Sheet ["K"; "V"]
                       [["a"; "1"]; ["b"; "2"]; [" "; ""]; ["d"; "4"]] ]}
           {[ "S" := Sheet ["K"; "V"]
                       [["a"; "1"]; ["b"; "3"]; [""; ""]; ["e"; "5"]; ["f"; "6"]] ]}
           (World ["3"; "2"; "1"; "2"; "s"] [])
           {[ "S" := Sheet ["K"; "V"] [["a"; "1"]; ["b"; "3"]; ["e"; "5"]] ]} 4
           (World []
              [Display "S" 1 ["K"; "V"] (Some ["b"; "2"]) (Some ["b"; "3"]);
               Ask row_prompt row_choices;
               FieldConflict "V" "2" "3"; Ask "Choose" field_choices;
               Display "S" 2 ["K"; "V"] (Some [" "; ""]) (Some [""; ""]);
               Ask row_prompt row_choices;
               Display "S" 3 ["K"; "V"] (Some ["d"; "4"]) (Some ["e"; "5"]);
               Ask row_prompt row_choices;
               Display "S" 4 ["K"; "V"] None (Some ["f"; "6"]);
               Ask row_prompt row_choices])
           _ "S" (Sheet ["K"; "V"] [["a"; "1"]; ["b"; "3"]; ["e"; "5"]]) _).
  - vm_compute. reflexivity.
  - vm_compute. reflexivity.
Defined.

(** C7 — union of sheets.  When the sheet names are iterated as the union of
    the two key sets, the resolved dataset of every completed reconciliation
    has exactly the names of that union as its keys, also for a name whose
    entry has no rows and when one dataset has no sheets; and a sheet missing
    on one side is reconciled exactly as if that side held an empty sheet
    (no headers, no rows) under that name. *)
Theorem union_of_sheets all_sheets (local_data remote_data : dataset) :
  enumerates all_sheets local_data remote_data →
  (∀ w (resolved : dataset) total w',
     compare_json_enhanced all_sheets local_data remote_data w
     = Some ((resolved, total), w') →
     dom resolved = dom local_data ∪ dom remote_data ∧
     (remote_data = ∅ → dom resolved = dom local_data) ∧
     (local_data = ∅ → dom resolved = dom remote_data)) ∧
  (∀ name w,
     remote_data !! name = None →
     compare_json_enhanced all_sheets local_data remote_data w
     = compare_json_enhanced all_sheets local_data
                             (<[name := empty_sheet]> remote_data) w) ∧
  (∀ name w,
     local_data !! name = None →
     compare_json_enhanced all_sheets local_data remote_data w
     = compare_json_enhanced all_sheets (<[name := empty_sheet]> local_data)
                             remote_data w).
Proof.
  intros [_ Hall]. split; [|split].
  - intros w resolved total w' Hrun.
    apply dataset_loop_dom in Hrun.
    assert (dom resolved = dom local_data ∪ dom remote_data) as Hdom.
    { rewrite Hrun, dom_empty_L, (left_id_L ∅ (∪)).
      apply set_eq. intros name. rewrite elem_of_list_to_set. apply Hall. }
    split; [done|]. rewrite Hdom. split; intros ->.
    + by rewrite dom_empty_L, (right_id_L ∅ (∪)).
    + by rewrite dom_empty_L, (left_id_L ∅ (∪)).
  - intros name w Hnone. unfold compare_json_enhanced.
    apply for_each_ext. intros. by apply sheet_step_default_remote.
  - intros name w Hnone. unfold compare_json_enhanced.
    apply for_each_ext. intros. by apply sheet_step_default_local.
Qed.

(** Two local sheets, one of them without rows, against a remote dataset with
    no sheets. *)
Lemma union_of_sheets_witness :
  dom ({[ "A" := Sheet ["h"] [["x"; "1"]]; "E" := Sheet ["h"] [] ]} : dataset)
  = dom (<[ "A" := Sheet ["h"] [["x"; "1"]] ]> {[ "E" := Sheet ["h"] [] ]} : dataset)
    ∪ dom (∅ : dataset).
Proof.
  refine (proj1 (proj1 (union_of_sheets ["E"; "A"]
           (<[ "A" := Sheet ["h"] [["x"; "1"]] ]> {[ "E" := Sheet ["h"] [] ]})
           ∅ _)
           (World ["1"] []) _ 1
           (World [] [Display "A" 0 ["h"] (Some ["x"; "1"]) None;
                      Ask row_prompt row_choices]) _)).
  - split.
    + apply (bool_decide_unpack _). vm_compute. reflexivity.
    + intros name. rewrite dom_insert_L, dom_singleton_L, dom_empty_L.
      rewrite !elem_of_cons, elem_of_nil, !elem_of_union, !elem_of_singleton,
        elem_of_empty.
      tauto.
  - vm_compute. reflexivity.
Defined.

(** ** Every reconciliation can be completed *)

Section Completion.

Lemma compare_sheet_skip_all sheet local_sheet remote_sheet w rest :
  let n := length (diverging (sheet_rows local_sheet) (sheet_rows remote_sheet)) in
  stdin w = replicate n "s" ++ rest →
  ∃ entry w',
    compare_sheet sheet local_sheet remote_sheet w = Some ((entry, n), w') ∧
    stdin w' = rest.
Proof.
  intros n Hin. unfold compare_sheet, bind.
  edestruct (rows_loop_skip_all sheet) as (rr & w' & -> & Hrest);
    [exact Hin|].
  eexists _, w'. split; [|done]. done.
Qed.

(** Whatever the two datasets, the operator who skips every conflict gets a
    resolved dataset: the reconciliation is defined on every input. *)
Lemma compare_json_skip_all (local_data remote_data : dataset) all_sheets :
  ∀ (m : dataset) total w rest,
    stdin w = skip_all_answers all_sheets local_data remote_data ++ rest →
    ∃ (resolved : dataset) total' w',
      for_each all_sheets (sheet_step local_data remote_data) (m, total) w
      = Some ((resolved, total'), w') ∧
      stdin w' = rest.
Proof.
  induction all_sheets as [|x xs IH]; intros m total w rest Hin.
  - exists m, total, w. by simpl in *.
  - cbn [for_each]. unfold bind at 1, sheet_step. unfold bind at 1.
    unfold skip_all_answers in Hin. cbn [flat_map] in Hin.
    rewrite <- app_assoc in Hin.
    destruct (compare_sheet_skip_all x _ _ _ _ Hin) as (entry & w1 & -> & Hw1).
    simpl. unfold ret at 1. by apply IH.
Qed.

End Completion.

(** ** The concrete scenarios of the specification *)

(** Scenario 1: one differing field; the operator merges and keeps the local
    value. *)
Example scenario1 :
  compare_json_enhanced ["Sheet1"]
    {[ "Sheet1" := Sheet ["Name"; "Age"] [["Alice"; "30"]] ]}
    {[ "Sheet1" := Sheet ["Name"; "Age"] [["Alice"; "31"]] ]}
    (World ["3"; "1"] [])
  = Some (({[ "Sheet1" := Sheet ["Name"; "Age"] [["Alice"; "30"]] ]}, 1),
          World []
            [Display "Sheet1" 0 ["Name"; "Age"]
               (Some ["Alice"; "30"]) (Some ["Alice"; "31"]);
             Ask row_prompt row_choices;
             FieldConflict "Age" "30" "31";
             Ask "Choose" field_choices]).
Proof. vm_compute. reflexivity. Qed.

(** Scenario 3: two equal blank rows are dropped without a conflict. *)
Example scenario3 :
  compare_sheet "Sheet1" (Sheet ["A"; "B"] [[""; ""]]) (Sheet ["A"; "B"] [[""; ""]])
                (World [] [])
  = Some ((Sheet ["A"; "B"] [], 0), World [] []).
Proof. vm_compute. reflexivity. Qed.

(** * Further properties of the code *)

(** ** [get_user_choice] *)

Section Choice.

Lemma read_choice_Some valid_choices lines choice rest :
  read_choice valid_choices lines = Some (choice, rest) ↔
  ∃ junk line,
    lines = junk ++ line :: rest ∧
    Forall (λ l, strip l ∉ valid_choices) junk ∧
    strip line = choice ∧ choice ∈ valid_choices.
Proof.
  split.
  - induction lines as [|l lines IH]; simpl; [done|].
    case_bool_decide as Hv.
    + intros [= <- <-]. by exists [], l.
    + intros (junk & line & -> & Hjunk & Hline & Hin)%IH.
      exists (l :: junk), line. repeat split; auto.
  - intros (junk & line & -> & Hjunk & <- & Hin).
    by apply read_choice_skip.
Qed.

Lemma read_choice_None valid_choices lines :
  read_choice valid_choices lines = None ↔
  Forall (λ l, strip l ∉ valid_choices) lines.
Proof.
  induction lines as [|l lines IH]; simpl.
  - split; [constructor|done].
  - case_bool_decide as Hv.
    + split; [done|]. by intros [? _]%Forall_cons.
    + rewrite IH. split; [by constructor|by intros [_ ?]%Forall_cons].
Qed.

End Choice.

(** X1 — [get_user_choice] returns [choice] exactly when the remaining input
    is a run of lines that are not valid choices after trimming, followed by a
    line whose trimmed text is [choice], a valid choice; the rejected lines
    and that line are consumed, and one call is added to the trace. *)
Theorem get_user_choice_first_valid prompt valid_choices w choice w' :
  get_user_choice prompt valid_choices w = Some (choice, w') ↔
  ∃ junk line rest,
    stdin w = junk ++ line :: rest ∧
    Forall (λ l, strip l ∉ valid_choices) junk ∧
    strip line = choice ∧ choice ∈ valid_choices ∧
    w' = World rest (trace w ++ [Ask prompt valid_choices]).
Proof.
  split.
  - intros (rest & Hread & ->)%get_user_choice_inv.
    apply read_choice_Some in Hread as (junk & line & Hin & Hjunk & Hline & Hv).
    by exists junk, line, rest.
  - intros (junk & line & rest & Hin & Hjunk & Hline & Hv & ->).
    apply get_user_choice_answer, read_choice_Some. by exists junk, line.
Qed.

(** X2 — [get_user_choice] ends in [EOFError] exactly when no remaining line
    is a valid choice after trimming: in particular on exhausted input and,
    whatever the input, when the list of valid choices is empty. *)
Theorem get_user_choice_eof prompt valid_choices w :
  (get_user_choice prompt valid_choices w = None ↔
   Forall (λ l, strip l ∉ valid_choices) (stdin w)) ∧
  (stdin w = [] → get_user_choice prompt valid_choices w = None) ∧
  get_user_choice prompt [] w = None.
Proof.
  assert (∀ v, get_user_choice prompt v w = None ↔
               Forall (λ l, strip l ∉ v) (stdin w)) as Hiff.
  { intros v. rewrite <- read_choice_None. unfold get_user_choice.
    destruct (read_choice v (stdin w)) as [[c rest]|]; split; done. }
  split; [apply Hiff|]. split.
  - intros Hw. apply Hiff. rewrite Hw. constructor.
  - apply Hiff. apply Forall_forall. intros l _. apply not_elem_of_nil.
Qed.

Lemma get_user_choice_eof_witness :
  get_user_choice "Choose" ["1"; "2"] (World [] []) = None.
Proof.
  apply (proj1 (proj2 (get_user_choice_eof "Choose" ["1"; "2"] (World [] [])))).
  reflexivity.
Defined.

(** ** [merge_rows_enhanced] *)

Section MergeMore.

Lemma field_conflict_true l r i :
  field_conflict l r i = true ↔
  strip (default "" (l !! i)) ≠ "" ∧ strip (default "" (r !! i)) ≠ "" ∧
  strip (default "" (l !! i)) ≠ strip (default "" (r !! i)).
Proof.
  unfold field_conflict.
  destruct (strip (default "" (l !! i))) as [|a lv],
           (strip (default "" (r !! i))) as [|b rv]; simpl;
    try (split; [done|by intros (? & ? & ?)]).
  case_bool_decide; simpl; split; try done. by intros (_ & _ & ?).
Qed.

(** A position that is not a conflict is merged without the console. *)
Lemma merge_field_silent headers l r i merged w :
  field_conflict l r i = false →
  merge_field headers l r i merged w = Some (merged ++ [auto_cell l r i], w).
Proof.
  unfold field_conflict, auto_cell. intros Hc. apply merge_field_auto.
  destruct (strip (default "" (l !! i))) as [|a lv] eqn:El,
           (strip (default "" (r !! i))) as [|b rv] eqn:Er; simpl in *.
  - by left.
  - right; right. done.
  - right; left. done.
  - left. by case_bool_decide.
Qed.

(** A conflicting position is decided by the operator's next valid answer. *)
Lemma merge_field_asked headers l r i merged w :
  field_conflict l r i = true →
  merge_field headers l r i merged w =
  match read_choice field_choices (stdin w) with
  | Some (choice, rest) =>
      Some (merged ++ [if bool_decide (choice = "1")
                       then strip (default "" (l !! i))
                       else strip (default "" (r !! i))],
            World rest
              (trace w ++
               [FieldConflict (default ("Column_" +:+ pretty (i + 1)) (headers !! i))
                  (strip (default "" (l !! i))) (strip (default "" (r !! i)));
                Ask "Choose" field_choices]))
  | None => None
  end.
Proof.
  intros (Hl & Hr & Hne)%field_conflict_true.
  destruct (read_choice field_choices (stdin w)) as [[choice rest]|] eqn:Hread.
  - by apply merge_field_conflict.
  - unfold merge_field. rewrite bool_decide_eq_false_2 by done.
    destruct (strip (default "" (l !! i))); [done|].
    destruct (strip (default "" (r !! i))); [done|]. simpl.
    unfold bind, emit, get_user_choice. simpl. by rewrite Hread.
Qed.

Lemma merge_loop_decisions headers l r xs : ∀ merged w merged' w',
  for_each xs (merge_field headers l r) merged w = Some (merged', w') →
  ∃ new, trace w' = trace w ++ new ∧
         field_decisions new = length (List.filter (field_conflict l r) xs) ∧
         row_decisions new = 0.
Proof.
  induction xs as [|i xs IH]; intros merged w merged' w'.
  - intros [<- <-]%ret_Some. exists []. by rewrite app_nil_r.
  - cbn [for_each]. intros (m1 & w1 & Hstep & Hrest)%bind_Some.
    apply IH in Hrest as (new & Ht & Hf & Hr). cbn [List.filter].
    destruct (field_conflict l r i) eqn:Hc.
    + rewrite merge_field_asked in Hstep by done.
      destruct (read_choice _ _) as [[choice rest]|]; [|done].
      injection Hstep as <- <-. simpl in Ht.
      eexists (_ :: _ :: new). rewrite Ht, <- app_assoc.
      split; [done|]. split; [|done].
      change (field_decisions (?a :: ?b :: new))
        with (field_decisions ([a; b] ++ new)).
      unfold field_decisions in *. rewrite List.filter_app, length_app, Hf.
      done.
    + rewrite merge_field_silent in Hstep by done. injection Hstep as <- <-.
      by exists new.
Qed.

Lemma merge_loop_silent headers l r xs : ∀ merged w,
  List.filter (field_conflict l r) xs = [] →
  for_each xs (merge_field headers l r) merged w
  = Some (merged ++ (auto_cell l r <$> xs), w).
Proof.
  induction xs as [|i xs IH]; intros merged w Hnone.
  - simpl. by rewrite app_nil_r.
  - cbn [for_each List.filter] in *. unfold bind.
    destruct (field_conflict l r i) eqn:Hc; [done|].
    rewrite merge_field_silent by done. rewrite IH by done.
    by rewrite <- app_assoc.
Qed.

Lemma auto_cell_same (l : row) i :
  (i < length l)%nat → Some (auto_cell l l i) = strip <$> l !! i.
Proof.
  intros [cell Hcell]%lookup_lt_is_Some_2. unfold auto_cell.
  rewrite Hcell. simpl. by destruct (strip cell).
Qed.

Lemma field_conflict_same l i : field_conflict l l i = false.
Proof.
  unfold field_conflict. rewrite bool_decide_eq_true_2 by done.
  by rewrite andb_false_r.
Qed.

End MergeMore.

(** X3 — in every completed merge of two non-empty rows, each cell of the
    merged row is the trimmed local or the trimmed remote cell of its own
    position (a missing cell counting as empty), and is itself trimmed. *)
Theorem merged_cells_are_trimmed_inputs headers (l r : row) w m w' :
  l ≠ [] → r ≠ [] →
  merge_rows_enhanced headers (Some l) (Some r) w = Some (Some m, w') →
  length m = max (length l) (length r) ∧
  ∀ j v, m !! j = Some v →
         (v = strip (default "" (l !! j)) ∨ v = strip (default "" (r !! j))) ∧
         strip v = v.
Proof.
  intros Hl Hr Hrun. apply merge_rows_inv in Hrun as [_ Hres].
  rewrite !row_truthy_Some, !list_truthy_ne in Hres by done.
  destruct Hres as [(? & _)|[(? & _)|[(_ & ? & _)|Hres]]]; try done.
  destruct Hres as (l' & r' & m' & [= <-] & [= <-] & [= <-] & _ & _ & Hlen & Hm).
  split; [done|]. intros j v Hv.
  destruct (Hm j v Hv) as (_ & _ & _ & Hor). split; [done|].
  destruct Hor as [->| ->]; apply strip_strip.
Qed.

Lemma merged_cells_are_trimmed_inputs_witness :
  length ["a"; "c"; "d"] = max (length ["a "; "b"]) (length [" a"; "c"; " d "]) ∧
  ∀ j v, ["a"; "c"; "d"] !! j = Some v →
         (v = strip (default "" (["a "; "b"] !! j)) ∨
          v = strip (default "" ([" a"; "c"; " d "] !! j))) ∧
         strip v = v.
Proof.
  apply (merged_cells_are_trimmed_inputs ["H"] ["a "; "b"] [" a"; "c"; " d "]
           (World ["2"] []) ["a"; "c"; "d"]
           (World [] [FieldConflict "Column_2" "b" "c"; Ask "Choose" ["1"; "2"]]));
    [discriminate|discriminate|vm_compute; reflexivity].
Defined.

(** X4 — a completed merge asks one field-level decision per conflicting
    position and never a row-level one; when one of the two rows is absent or
    empty it asks nothing and leaves the console as it was. *)
Theorem merge_asks_once_per_conflict headers lrow rrow w res w' :
  merge_rows_enhanced headers lrow rrow w = Some (res, w') →
  ∃ new,
    trace w' = trace w ++ new ∧ row_decisions new = 0 ∧
    field_decisions new
    = (if row_truthy lrow && row_truthy rrow
       then length (conflicting (default [] lrow) (default [] rrow))
       else 0) ∧
    (row_truthy lrow && row_truthy rrow = false → w' = w).
Proof.
  unfold merge_rows_enhanced.
  destruct (row_truthy lrow) eqn:Hl, (row_truthy rrow) eqn:Hr; simpl.
  - intros (m & w1 & Hloop & [<- <-]%ret_Some)%bind_Some.
    apply merge_loop_decisions in Hloop as (new & Ht & Hf & Hd).
    exists new. unfold conflicting. by repeat split.
  - intros [<- <-]%ret_Some. exists []. by rewrite app_nil_r.
  - intros [<- <-]%ret_Some. exists []. by rewrite app_nil_r.
  - intros [<- <-]%ret_Some. exists []. by rewrite app_nil_r.
Qed.

Lemma merge_asks_once_per_conflict_witness :
  ∃ new,
    [FieldConflict "K" "a" "x"; Ask "Choose" ["1"; "2"];
     FieldConflict "Column_3" "c" "z"; Ask "Choose" ["1"; "2"]] = [] ++ new ∧
    row_decisions new = 0 ∧
    field_decisions new
    = (if row_truthy (Some ["a"; "b"; "c"]) && row_truthy (Some ["x"; "b"; "z"; "w"])
       then length (conflicting (default [] (Some ["a"; "b"; "c"]))
                                (default [] (Some ["x"; "b"; "z"; "w"])))
       else 0) ∧
    (row_truthy (Some ["a"; "b"; "c"]) && row_truthy (Some ["x"; "b"; "z"; "w"])
     = false →
     World [] [FieldConflict "K" "a" "x"; Ask "Choose" ["1"; "2"];
               FieldConflict "Column_3" "c" "z"; Ask "Choose" ["1"; "2"]]
     = World ["1"; "2"] []).
Proof.
  apply (merge_asks_once_per_conflict ["K"; "V"] (Some ["a"; "b"; "c"])
           (Some ["x"; "b"; "z"; "w"]) (World ["1"; "2"] [])
           (Some ["a"; "b"; "z"; "w"])
           (World [] [FieldConflict "K" "a" "x"; Ask "Choose" ["1"; "2"];
                      FieldConflict "Column_3" "c" "z"; Ask "Choose" ["1"; "2"]])).
  vm_compute. reflexivity.
Defined.

(** X5 — two non-empty rows without a conflicting position are merged on
    every console without reading or showing anything: each cell is the
    trimmed local value, or the trimmed remote value where the local one is
    empty.  In particular a row merged with itself gives its cells trimmed. *)
Theorem merge_without_conflict_is_silent headers (l r : row) w :
  l ≠ [] → r ≠ [] → conflicting l r = [] →
  merge_rows_enhanced headers (Some l) (Some r) w
  = Some (Some (auto_cell l r <$> seq 0 (max (length l) (length r))), w) ∧
  merge_rows_enhanced headers (Some l) (Some l) w = Some (Some (strip <$> l), w).
Proof.
  intros Hl Hr Hnone. unfold merge_rows_enhanced.
  rewrite !row_truthy_Some, !list_truthy_ne by done. simpl. unfold bind.
  split.
  - by rewrite merge_loop_silent.
  - rewrite merge_loop_silent.
    + simpl. unfold ret. do 3 f_equal. rewrite Nat.max_id.
      apply list_eq. intros i. rewrite !list_lookup_fmap.
      destruct (decide (i < length l)%nat) as [Hi|Hi].
      * rewrite lookup_seq_lt by done. simpl. by apply auto_cell_same.
      * rewrite lookup_seq_ge, (lookup_ge_None_2 l) by lia. done.
    + induction (seq 0 _) as [|i xs IH]; [done|]. simpl.
      by rewrite field_conflict_same.
Qed.

Lemma merge_without_conflict_is_silent_witness :
  merge_rows_enhanced ["K"] (Some [" a "; ""]) (Some ["a"; "b "; " c"])
                      (World ["zz"] [])
  = Some (Some (auto_cell [" a "; ""] ["a"; "b "; " c"] <$> seq 0 (max 2 3)),
          World ["zz"] []) ∧
  merge_rows_enhanced ["K"] (Some [" a "; ""]) (Some [" a "; ""]) (World ["zz"] [])
  = Some (Some (strip <$> [" a "; ""]), World ["zz"] []).
Proof.
  apply (merge_without_conflict_is_silent ["K"] [" a "; ""] ["a"; "b "; " c"]
           (World ["zz"] []));
    [discriminate|discriminate|vm_compute; reflexivity].
Defined.

Section MergeDirection.

Lemma field_choices_cases choice :
  choice ∈ field_choices ↔ choice = "1" ∨ choice = "2".
Proof. unfold field_choices. rewrite !elem_of_cons, elem_of_nil. tauto. Qed.

Lemma flip_answer_valid line :
  strip line ∈ field_choices →
  strip (flip_answer line) = (if bool_decide (strip line = "1") then "2" else "1").
Proof.
  unfold flip_answer. intros [Hv|Hv]%field_choices_cases; by rewrite Hv.
Qed.

Lemma flip_answer_invalid line :
  strip line ∉ field_choices → flip_answer line = line.
Proof.
  rewrite field_choices_cases. intros Hv. unfold flip_answer.
  by rewrite !bool_decide_eq_false_2 by tauto.
Qed.

Lemma read_choice_flip lines :
  match read_choice field_choices lines with
  | Some (choice, rest) =>
      read_choice field_choices (flip_answer <$> lines)
      = Some (if bool_decide (choice = "1") then "2" else "1",
              flip_answer <$> rest)
  | None => read_choice field_choices (flip_answer <$> lines) = None
  end.
Proof.
  induction lines as [|line lines IH]; [done|].
  cbn [read_choice fmap list_fmap].
  case_bool_decide as Hv.
  - rewrite (flip_answer_valid _ Hv).
    rewrite bool_decide_eq_true_2; [done|].
    apply field_choices_cases. case_bool_decide; auto.
  - rewrite (flip_answer_invalid _ Hv).
    rewrite bool_decide_eq_false_2 by done. exact IH.
Qed.

Lemma field_conflict_sym l r i : field_conflict r l i = field_conflict l r i.
Proof.
  unfold field_conflict.
  destruct (strip (default "" (l !! i))) as [|a lv],
           (strip (default "" (r !! i))) as [|b rv]; simpl; try done.
  repeat case_bool_decide; congruence.
Qed.

Lemma auto_cell_sym l r i :
  field_conflict l r i = false → auto_cell r l i = auto_cell l r i.
Proof.
  unfold field_conflict, auto_cell.
  destruct (strip (default "" (l !! i))) as [|a lv],
           (strip (default "" (r !! i))) as [|b rv]; simpl; try done.
  case_bool_decide; [done|]. done.
Qed.

Lemma merge_loop_flip headers l r xs : ∀ merged w merged' w' t,
  for_each xs (merge_field headers l r) merged w = Some (merged', w') →
  ∃ t', for_each xs (merge_field headers r l) merged
                 (World (flip_answer <$> stdin w) t)
        = Some (merged', World (flip_answer <$> stdin w') t').
Proof.
  induction xs as [|i xs IH]; intros merged w merged' w' t.
  - intros [<- <-]%ret_Some. by exists t.
  - cbn [for_each]. intros (m1 & w1 & Hstep & Hrest)%bind_Some.
    unfold bind. destruct (field_conflict l r i) eqn:Hc.
    + rewrite merge_field_asked in Hstep by done.
      rewrite merge_field_asked by (by rewrite field_conflict_sym).
      pose proof (read_choice_flip (stdin w)) as Hflip. cbn [stdin].
      destruct (read_choice field_choices (stdin w)) as [[choice rest]|];
        [|done].
      rewrite Hflip. injection Hstep as <- <-.
      eapply IH in Hrest as [t' Hrest]. cbn [stdin] in Hrest.
      exists t'. rewrite <- Hrest. do 3 f_equal.
      destruct (bool_decide (choice = "1")); done.
    + rewrite merge_field_silent in Hstep by done. injection Hstep as <- <-.
      rewrite merge_field_silent by (by rewrite field_conflict_sym).
      rewrite auto_cell_sym by done. by apply IH.
Qed.

End MergeDirection.

(** X6 — the merge direction only decides which side is offered as option
    "1".  Merging with the two rows exchanged, on the input in which every
    field answer "1" is replaced by "2" and every "2" by "1", returns the same
    merged row and leaves the correspondingly exchanged remaining input. *)
Theorem merge_direction_exchanges_answers headers lrow rrow w res w' t :
  merge_rows_enhanced headers lrow rrow w = Some (res, w') →
  ∃ t', merge_rows_enhanced headers rrow lrow
                            (World (flip_answer <$> stdin w) t)
        = Some (res, World (flip_answer <$> stdin w') t').
Proof.
  unfold merge_rows_enhanced.
  destruct (row_truthy lrow) eqn:Hl, (row_truthy rrow) eqn:Hr; simpl.
  - intros (m & w1 & Hloop & [<- <-]%ret_Some)%bind_Some.
    eapply merge_loop_flip in Hloop as [t' Hloop].
    exists t'. unfold bind. rewrite Nat.max_comm, Hloop. done.
  - intros [<- <-]%ret_Some. by exists t.
  - intros [<- <-]%ret_Some. by exists t.
  - intros [<- <-]%ret_Some. by exists t.
Qed.

Lemma merge_direction_exchanges_answers_witness :
  ∃ t', merge_rows_enhanced ["K"; "V"] (Some ["x"; "b"; "z"]) (Some ["a"; "b"; "c"])
                            (World (flip_answer <$> ["1"; "?"; " 2"; "s"]) [])
        = Some (Some ["a"; "b"; "z"], World (flip_answer <$> ["s"]) t').
Proof.
  apply (merge_direction_exchanges_answers ["K"; "V"] (Some ["a"; "b"; "c"])
           (Some ["x"; "b"; "z"]) (World ["1"; "?"; " 2"; "s"] [])
           (Some ["a"; "b"; "z"])
           (World ["s"] [FieldConflict "K" "a" "x"; Ask "Choose" ["1"; "2"];
                         FieldConflict "Column_3" "c" "z"; Ask "Choose" ["1"; "2"]])
           []).
  vm_compute. reflexivity.
Defined.

(** ** The rows of a resolved sheet *)

Section Provenance.

Context (sheet : string) (headers : list string).
Context (local_rows remote_rows : list row).

Local Abbreviation step := (row_step sheet headers local_rows remote_rows).

Lemma merge_origin lrow rrow w res w' r :
  merge_rows_enhanced headers lrow rrow w = Some (res, w') →
  res = Some r → row_origin lrow rrow r.
Proof.
  intros Hrun ->. apply merge_rows_inv in Hrun as [_ Hres].
  destruct Hres as [(_ & _ & ?)|[(_ & _ & <- & _)|[(_ & _ & <- & _)|Hres]]].
  - done.
  - right; by left.
  - by left.
  - destruct Hres as (a & b & m & -> & -> & [= <-] & _ & _ & Hlen & Hm).
    right; right. exists a, b. do 3 (split; [done|]).
    intros j v Hv. by destruct (Hm j v Hv) as (_ & _ & _ & Hor).
Qed.

Lemma row_origin_sym lrow rrow r : row_origin rrow lrow r → row_origin lrow rrow r.
Proof.
  intros [?|[?|(a & b & ? & ? & Hlen & Hc)]]; [right; by left|by left|].
  right; right. exists b, a. rewrite Nat.max_comm.
  do 3 (split; [done|]). intros j v Hv. destruct (Hc j v Hv); auto.
Qed.

(** One index places at most one row, and that row comes from the pair. *)
Lemma row_step_origin i resolved_rows k w rows' k' w' :
  step i (resolved_rows, k) w = Some ((rows', k'), w') →
  rows' = resolved_rows ∨
  ∃ r, rows' = resolved_rows ++ [r] ∧
       row_origin (local_rows !! i) (remote_rows !! i) r.
Proof.
  destruct (decide (local_rows !! i = remote_rows !! i)) as [Heq|Hne].
  { rewrite row_step_equal by done. intros [= <- _ _].
    destruct (local_rows !! i) as [r|]; simpl.
    - destruct (_ && _); [|left; by rewrite app_nil_r].
      right. exists r. split; [done|by left].
    - left. by rewrite app_nil_r. }
  destruct (read_choice row_choices (stdin w)) as [[choice rest]|] eqn:Hread.
  2:{ unfold row_step. rewrite bool_decide_eq_false_2 by done.
      unfold bind, display_conflict_detailed, emit, get_user_choice.
      simpl. by rewrite Hread. }
  rewrite (row_step_conflict _ _ _ _ _ _ _ _ _ _ Hne Hread). cbv zeta.
  set (w2 := World rest _).
  assert (∀ o : option row, row_truthy o = true → ∃ r, o = Some r) as Htr.
  { intros [[|c r]|]; try done. by eexists. }
  assert (∀ lrow rrow,
    (∀ r, row_origin lrow rrow r →
          row_origin (local_rows !! i) (remote_rows !! i) r) →
    (let! merged := merge_rows_enhanced headers lrow rrow in
     if row_truthy merged then ret (append_row resolved_rows merged, S k)
     else ret (resolved_rows, S k)) w2 = Some ((rows', k'), w') →
    rows' = resolved_rows ∨
    ∃ r, rows' = resolved_rows ++ [r] ∧
         row_origin (local_rows !! i) (remote_rows !! i) r) as Hmerge.
  { intros lrow rrow Horig (merged & w3 & Hm & Hret)%bind_Some.
    destruct (row_truthy merged) eqn:Hmt;
      apply ret_Some in Hret as [[= <- _] _]; [|by left].
    destruct (Htr _ Hmt) as [r ->]. right. exists r. split; [done|].
    apply Horig. by eapply merge_origin. }
  destruct (bool_decide (choice = "1") && row_truthy (local_rows !! i)) eqn:H1.
  { apply andb_prop in H1 as [_ [r Hr]%Htr].
    intros [[= <- _] _]%ret_Some. right. exists r. rewrite Hr.
    split; [done|by left]. }
  destruct (bool_decide (choice = "2") && row_truthy (remote_rows !! i)) eqn:H2.
  { apply andb_prop in H2 as [_ [r Hr]%Htr].
    intros [[= <- _] _]%ret_Some. right. exists r. rewrite Hr.
    split; [done|right; by left]. }
  destruct (bool_decide (choice = "3")).
  { apply Hmerge. auto. }
  destruct (bool_decide (choice = "4")).
  { apply Hmerge. intros r. apply row_origin_sym. }
  intros [[= <- _] _]%ret_Some. by left.
Qed.

Lemma rows_loop_origin xs : ∀ resolved_rows k w rows' k' w',
  for_each xs step (resolved_rows, k) w = Some ((rows', k'), w') →
  ∃ tagged : list (nat * row),
    rows' = resolved_rows ++ tagged.*2 ∧
    tagged.*1 `sublist_of` xs ∧
    Forall (λ p, row_origin (local_rows !! p.1) (remote_rows !! p.1) p.2) tagged.
Proof.
  induction xs as [|i xs IH]; intros rr k w rr' k' w'.
  - intros [[= <- _] _]%ret_Some. exists []. by rewrite app_nil_r.
  - cbn [for_each]. intros ([rr1 k1] & w1 & Hstep & Hrest)%bind_Some.
    apply IH in Hrest as (tagged & -> & Hsub & Hall).
    apply row_step_origin in Hstep as [->|(r & -> & Hr)].
    + exists tagged. split; [done|]. split; [by apply sublist_cons|done].
    + exists ((i, r) :: tagged). rewrite <- app_assoc.
      split; [done|]. split; [by apply sublist_skip|by constructor].
Qed.

End Provenance.

Section Tagged.

Context {A : Type}.

Lemma filter_tagged_snd (f : A → bool) (t : list (nat * A)) :
  (List.filter (λ p, f p.2) t).*2 = List.filter f (t.*2).
Proof.
  induction t as [|[i x] t IH]; simpl; [done|].
  destruct (f x); simpl; [f_equal|]; exact IH.
Qed.

Lemma filter_tagged_fst (g : nat * A → bool) (t : list (nat * A)) :
  (List.filter g t).*1 `sublist_of` t.*1.
Proof.
  induction t as [|p t IH]; simpl; [constructor|].
  destruct (g p); simpl; by constructor.
Qed.

Lemma filter_tagged_Forall (P : nat * A → Prop) (g : nat * A → bool) t :
  Forall P t → Forall P (List.filter g t).
Proof.
  induction 1 as [|p t Hp _ IH]; simpl; [constructor|].
  destruct (g p); [by constructor|done].
Qed.

Lemma tagged_Forall2 (Q : nat → A → Prop) (t : list (nat * A)) :
  Forall (λ p, Q p.1 p.2) t → Forall2 Q (t.*1) (t.*2).
Proof. induction 1; simpl; by constructor. Qed.

End Tagged.

(** X7 — the rows of a resolved sheet, in order, belong to strictly
    increasing positional indices below [max(len(local), len(remote))], at
    most one row per index; the row of an index is the local row of that
    index, the remote row of that index, or a merge of the two whose cells
    are trimmed cells of the same position.  Hence the resolved sheet never
    has more rows than the longer input and rows are never reordered. *)
Theorem resolved_rows_by_index sheet local_sheet remote_sheet w entry n w' :
  compare_sheet sheet local_sheet remote_sheet w = Some ((entry, n), w') →
  let local_rows := sheet_rows local_sheet in
  let remote_rows := sheet_rows remote_sheet in
  ∃ idx,
    idx `sublist_of` seq 0 (max (length local_rows) (length remote_rows)) ∧
    Forall2 (λ i r, row_origin (local_rows !! i) (remote_rows !! i) r)
            idx (sheet_rows entry) ∧
    (length (sheet_rows entry)
     ≤ max (length local_rows) (length remote_rows))%nat.
Proof.
  intros (rr & Hloop & ->)%compare_sheet_inv local_rows remote_rows.
  apply rows_loop_origin in Hloop as (tagged & -> & Hsub & Hall).
  set (kept_tagged := List.filter (λ p : nat * row, kept p.2) tagged).
  assert (kept_tagged.*1 `sublist_of`
            seq 0 (max (length local_rows) (length remote_rows))) as Hidx.
  { etrans; [apply filter_tagged_fst|done]. }
  assert (sheet_rows (Sheet
            (if list_truthy (sheet_headers local_sheet)
             then sheet_headers local_sheet else sheet_headers remote_sheet)
            (List.filter kept ([] ++ tagged.*2))) = kept_tagged.*2) as Hrows.
  { unfold kept_tagged. by rewrite (filter_tagged_snd kept). }
  exists (kept_tagged.*1). split; [done|]. rewrite Hrows. split.
  - apply tagged_Forall2. unfold kept_tagged.
    exact (filter_tagged_Forall _ _ _ Hall).
  - apply sublist_length in Hidx.
    rewrite length_fmap, length_seq in Hidx. by rewrite length_fmap.
Qed.

Lemma resolved_rows_by_index_witness :
  ∃ idx,
    idx `sublist_of` seq 0 (max (length [["a"; "1"]; ["b"; "2"]; ["c"; "3"]])
                                (length [["a"; "1"]; ["b"; "9"]])) ∧
    Forall2 (λ i r, row_origin ([["a"; "1"]; ["b"; "2"]; ["c"; "3"]] !! i)
                               ([["a"; "1"]; ["b"; "9"]] !! i) r)
            idx (sheet_rows (Sheet ["K"; "V"] [["a"; "1"]; ["c"; "3"]])) ∧
    (length (sheet_rows (Sheet ["K"; "V"] [["a"; "1"]; ["c"; "3"]]))
     ≤ max (length [["a"; "1"]; ["b"; "2"]; ["c"; "3"]])
           (length [["a"; "1"]; ["b"; "9"]]))%nat.
Proof.
  apply (resolved_rows_by_index "S"
           (Sheet ["K"; "V"] [["a"; "1"]; ["b"; "2"]; ["c"; "3"]])
           (Sheet ["K"; "V"] [["a"; "1"]; ["b"; "9"]])
           (World ["s"; "1"] [])
           (Sheet ["K"; "V"] [["a"; "1"]; ["c"; "3"]]) 2
           (World [] [Display "S" 1 ["K"; "V"] (Some ["b"; "2"]) (Some ["b"; "9"]);
                      Ask row_prompt row_choices;
                      Display "S" 2 ["K"; "V"] (Some ["c"; "3"]) None;
                      Ask row_prompt row_choices])).
  vm_compute. reflexivity.
Defined.

(** ** An operator with one fixed answer *)

Section Uniform.

Context (sheet : string) (headers : list string).
Context (local_rows remote_rows : list row).

Local Abbreviation step := (row_step sheet headers local_rows remote_rows).
Local Abbreviation differ :=
  (λ i, bool_decide (local_rows !! i ≠ remote_rows !! i)).

Lemma filter_kept_falsy (o : option row) :
  row_truthy o = false → List.filter kept (option_list o) = [].
Proof. by destruct o as [[|c r]|]. Qed.

Lemma uniform_step choice i resolved_rows k w tail :
  choice = "1" ∨ choice = "2" ∨ choice = "s" →
  local_rows !! i ≠ remote_rows !! i →
  stdin w = choice :: tail →
  ∃ rows' w',
    step i (resolved_rows, k) w = Some ((rows', S k), w') ∧ stdin w' = tail ∧
    List.filter kept rows'
    = List.filter kept resolved_rows
      ++ List.filter kept (option_list (uniform_row choice local_rows remote_rows i)).
Proof.
  intros Hc Hne Hin.
  assert (read_choice row_choices (stdin w) = Some (choice, tail)) as Hread.
  { rewrite Hin. destruct Hc as [->|[->| ->]]; reflexivity. }
  rewrite (row_step_conflict _ _ _ _ _ _ _ _ _ _ Hne Hread). cbv zeta.
  unfold uniform_row.
  rewrite (bool_decide_eq_false_2 (local_rows !! i = remote_rows !! i)) by done.
  unfold append_row.
  destruct Hc as [->|[->| ->]]; simpl.
  - destruct (row_truthy (local_rows !! i)) eqn:Ht; simpl; unfold ret.
    + eexists _, _. split; [done|]. split; [done|]. apply List.filter_app.
    + eexists _, _. split; [done|]. split; [done|].
      by rewrite filter_kept_falsy, app_nil_r.
  - destruct (row_truthy (remote_rows !! i)) eqn:Ht; simpl; unfold ret.
    + eexists _, _. split; [done|]. split; [done|]. apply List.filter_app.
    + eexists _, _. split; [done|]. split; [done|].
      by rewrite filter_kept_falsy, app_nil_r.
  - unfold ret. eexists _, _. split; [done|]. split; [done|].
    by rewrite app_nil_r.
Qed.

Lemma uniform_equal_step choice i resolved_rows k w :
  local_rows !! i = remote_rows !! i →
  ∃ rows',
    step i (resolved_rows, k) w = Some ((rows', k), w) ∧
    List.filter kept rows'
    = List.filter kept resolved_rows
      ++ List.filter kept (option_list (uniform_row choice local_rows remote_rows i)).
Proof.
  intros Heq. rewrite row_step_equal by done. eexists. split; [done|].
  unfold uniform_row. rewrite bool_decide_eq_true_2 by done.
  rewrite List.filter_app. f_equal.
  destruct (local_rows !! i) as [r|]; [|done].
  cbn [default from_option id option_list]. rewrite row_truthy_Some.
  fold (kept r). by destruct (kept r) eqn:Hk; simpl; rewrite ?Hk.
Qed.

Lemma filter_kept_omap_cons (f : nat → option row) i xs :
  List.filter kept (omap f (i :: xs))
  = List.filter kept (option_list (f i)) ++ List.filter kept (omap f xs).
Proof.
  rewrite <- List.filter_app. f_equal. simpl. by destruct (f i).
Qed.

Lemma rows_loop_uniform choice xs rest :
  choice = "1" ∨ choice = "2" ∨ choice = "s" →
  ∀ resolved_rows k w,
    stdin w = replicate (length (List.filter differ xs)) choice ++ rest →
    ∃ rows' w',
      for_each xs step (resolved_rows, k) w
      = Some ((rows', k + length (List.filter differ xs)), w') ∧
      stdin w' = rest ∧
      List.filter kept rows'
      = List.filter kept resolved_rows
        ++ List.filter kept (omap (uniform_row choice local_rows remote_rows) xs).
Proof.
  intros Hc. induction xs as [|i xs IH]; intros rr k w Hin.
  - exists rr, w. simpl in *. by rewrite Nat.add_0_r, app_nil_r.
  - cbn [for_each]. unfold bind. rewrite filter_kept_omap_cons.
    destruct (decide (local_rows !! i = remote_rows !! i)) as [Heq|Hne].
    + assert (List.filter differ (i :: xs) = List.filter differ xs) as Hf.
      { simpl. by rewrite bool_decide_eq_false_2 by tauto. }
      rewrite Hf in *.
      destruct (uniform_equal_step choice i rr k w Heq) as (rr1 & -> & Hk1).
      destruct (IH rr1 k w Hin) as (rr' & w' & -> & Hw' & Hk').
      exists rr', w'. split; [done|]. split; [done|].
      by rewrite Hk', Hk1, <- app_assoc.
    + assert (List.filter differ (i :: xs) = i :: List.filter differ xs) as Hf.
      { simpl. by rewrite bool_decide_eq_true_2. }
      rewrite Hf in *. simpl in Hin.
      destruct (uniform_step choice i rr k w _ Hc Hne Hin)
        as (rr1 & w1 & -> & Hw1 & Hk1).
      destruct (IH rr1 (S k) w1 Hw1) as (rr' & w' & -> & Hw' & Hk').
      exists rr', w'. simpl length. rewrite Nat.add_succ_r.
      split; [done|]. split; [done|]. by rewrite Hk', Hk1, <- app_assoc.
Qed.

Lemma omap_ext_all {A B} (f g : A → option B) (l : list A) :
  (∀ x, f x = g x) → omap f l = omap g l.
Proof.
  intros Hfg. induction l as [|x l IH]; [done|]. simpl. rewrite Hfg.
  destruct (g x); [f_equal|]; exact IH.
Qed.

Lemma uniform_row_local :
  omap (uniform_row "1" local_rows remote_rows)
       (seq 0 (max (length local_rows) (length remote_rows)))
  = local_rows.
Proof.
  rewrite (omap_ext_all _ (λ i, local_rows !! i)).
  - rewrite omap_lookup_seq, drop_0. apply take_ge. lia.
  - intros i. unfold uniform_row. by case_bool_decide.
Qed.

Lemma uniform_row_remote :
  omap (uniform_row "2" local_rows remote_rows)
       (seq 0 (max (length local_rows) (length remote_rows)))
  = remote_rows.
Proof.
  rewrite (omap_ext_all _ (λ i, remote_rows !! i)).
  - rewrite omap_lookup_seq, drop_0. apply take_ge. lia.
  - intros i. unfold uniform_row. by case_bool_decide.
Qed.

End Uniform.

Lemma compare_sheet_uniform choice sheet local_sheet remote_sheet w rest :
  choice = "1" ∨ choice = "2" ∨ choice = "s" →
  let local_rows := sheet_rows local_sheet in
  let remote_rows := sheet_rows remote_sheet in
  let n := length (diverging local_rows remote_rows) in
  stdin w = replicate n choice ++ rest →
  ∃ w',
    compare_sheet sheet local_sheet remote_sheet w
    = Some ((Sheet (if list_truthy (sheet_headers local_sheet)
                    then sheet_headers local_sheet
                    else sheet_headers remote_sheet)
                   (List.filter kept
                      (omap (uniform_row choice local_rows remote_rows)
                            (seq 0 (max (length local_rows)
                                        (length remote_rows))))), n), w') ∧
    stdin w' = rest.
Proof.
  intros Hc local_rows remote_rows n Hin. unfold compare_sheet, bind.
  edestruct (rows_loop_uniform sheet) as (rr & w' & -> & Hrest & Hk);
    [exact Hc|exact Hin|].
  exists w'. split; [|done]. unfold ret. by rewrite Hk.
Qed.

(** X8 — answering "1" (keep local) at every conflict of a sheet resolves it
    to the local rows without the blank ones, whatever the remote sheet holds
    and however long it is; answering "2" (keep remote) at every conflict
    resolves it to the remote rows without the blank ones.  One answer is
    read per diverging index. *)
Theorem keep_one_side_everywhere choice sheet local_sheet remote_sheet w rest :
  choice = "1" ∨ choice = "2" →
  let n := length (diverging (sheet_rows local_sheet) (sheet_rows remote_sheet)) in
  stdin w = replicate n choice ++ rest →
  ∃ entry w',
    compare_sheet sheet local_sheet remote_sheet w = Some ((entry, n), w') ∧
    stdin w' = rest ∧
    sheet_rows entry
    = List.filter kept (if bool_decide (choice = "1")
                        then sheet_rows local_sheet
                        else sheet_rows remote_sheet).
Proof.
  intros Hc n Hin.
  destruct (compare_sheet_uniform choice sheet local_sheet remote_sheet w rest)
    as (w' & Hrun & Hrest); [tauto|exact Hin|].
  eexists _, w'. split; [exact Hrun|]. split; [done|]. simpl.
  destruct Hc as [->| ->]; simpl.
  - by rewrite uniform_row_local.
  - by rewrite uniform_row_remote.
Qed.

Lemma keep_one_side_everywhere_witness :
  ∃ entry w',
    compare_sheet "S" (Sheet ["K"] [["a"]; ["b"]])
                  (Sheet ["K"] [["a"]; ["x"]; ["y"]]) (World ["1"; "1"; "zz"] [])
    = Some ((entry, 2), w') ∧
    stdin w' = ["zz"] ∧
    sheet_rows entry
    = List.filter kept (if bool_decide ("1" = "1")
                        then sheet_rows (Sheet ["K"] [["a"]; ["b"]])
                        else sheet_rows (Sheet ["K"] [["a"]; ["x"]; ["y"]])).
Proof.
  apply (keep_one_side_everywhere "1" "S" (Sheet ["K"] [["a"]; ["b"]])
           (Sheet ["K"] [["a"]; ["x"]; ["y"]]) (World ["1"; "1"; "zz"] []) ["zz"]).
  - by left.
  - reflexivity.
Defined.

(** X9 — skipping every conflict of a sheet resolves it to the non-blank rows
    on which the two sheets agree position by position, in order. *)
Theorem skip_everywhere sheet local_sheet remote_sheet w rest :
  let n := length (diverging (sheet_rows local_sheet) (sheet_rows remote_sheet)) in
  stdin w = replicate n "s" ++ rest →
  ∃ entry w',
    compare_sheet sheet local_sheet remote_sheet w = Some ((entry, n), w') ∧
    stdin w' = rest ∧
    sheet_rows entry
    = List.filter kept (agreed_rows (sheet_rows local_sheet)
                                    (sheet_rows remote_sheet)).
Proof.
  intros n Hin.
  destruct (compare_sheet_uniform "s" sheet local_sheet remote_sheet w rest)
    as (w' & Hrun & Hrest); [tauto|exact Hin|].
  eexists _, w'. split; [exact Hrun|]. by split.
Qed.

Lemma skip_everywhere_witness :
  ∃ entry w',
    compare_sheet "S" (Sheet ["K"] [["a"]; ["b"]; [" "]; ["d"]])
                  (Sheet ["K"] [["a"]; ["x"]; [" "]; ["d"]; ["e"]])
                  (World ["s"; "s"] [])
    = Some ((entry, 2), w') ∧
    stdin w' = [] ∧
    sheet_rows entry
    = List.filter kept (agreed_rows [["a"]; ["b"]; [" "]; ["d"]]
                                    [["a"]; ["x"]; [" "]; ["d"]; ["e"]]).
Proof.
  apply (skip_everywhere "S" (Sheet ["K"] [["a"]; ["b"]; [" "]; ["d"]])
           (Sheet ["K"] [["a"]; ["x"]; [" "]; ["d"]; ["e"]])
           (World ["s"; "s"] []) []).
  reflexivity.
Defined.

(** ** The resolved dataset as a whole *)

Section DatasetMore.

Context (local_data remote_data : dataset).

Local Abbreviation local_of := (λ name, default empty_sheet (local_data !! name)).
Local Abbreviation remote_of := (λ name, default empty_sheet (remote_data !! name)).

(** A loop invariant on the resolved dict: a property of entries that every
    stored entry has is kept by the loop. *)
Lemma dataset_loop_entries (P : string → sheet_t → Prop) xs :
  (∀ name w entry n w',
     compare_sheet name (local_of name) (remote_of name) w
     = Some ((entry, n), w') → P name entry) →
  ∀ (m : dataset) total w (m' : dataset) total' w',
    for_each xs (sheet_step local_data remote_data) (m, total) w
    = Some ((m', total'), w') →
    (∀ name entry, m !! name = Some entry → P name entry) →
    ∀ name entry, m' !! name = Some entry → P name entry.
Proof.
  intros HP. induction xs as [|x xs IH]; intros m total w m' total' w'.
  - by intros [[= <- _] _]%ret_Some.
  - cbn [for_each]. intros ([m1 t1] & w1 & Hstep & Hrest)%bind_Some Hm.
    apply sheet_step_inv in Hstep as (entry & n & Hsheet & -> & _).
    eapply IH; [exact Hrest|]. intros name e.
    destruct (decide (name = x)) as [->|Hne].
    + rewrite lookup_insert_eq. intros [= <-]. by eapply HP.
    + rewrite lookup_insert_ne by done. apply Hm.
Qed.

Lemma dataset_loop_total xs : ∀ (m : dataset) total w (m' : dataset) total' w',
  for_each xs (sheet_step local_data remote_data) (m, total) w
  = Some ((m', total'), w') →
  ∃ new,
    trace w' = trace w ++ new ∧ total' = total + row_decisions new ∧
    row_decisions new
    = sum_list ((λ name, length (diverging (sheet_rows (local_of name))
                                            (sheet_rows (remote_of name))))
                <$> xs).
Proof.
  induction xs as [|x xs IH]; intros m total w m' total' w'.
  - intros [[= _ <-] <-]%ret_Some. exists []. rewrite app_nil_r.
    change (row_decisions []) with 0. by rewrite Nat.add_0_r.
  - cbn [for_each]. intros ([m1 t1] & w1 & Hstep & Hrest)%bind_Some.
    apply sheet_step_inv in Hstep as (entry & n & Hsheet & -> & ->).
    apply compare_sheet_inv in Hsheet as (rr & Hloop & _).
    apply rows_loop_inv in Hloop as (_ & new1 & _ & Ht1 & Hn & Hd1).
    apply IH in Hrest as (new2 & Ht2 & -> & Hd2).
    exists (new1 ++ new2). rewrite row_decisions_app, Ht2, Ht1, <- app_assoc.
    split; [done|]. split; [lia|].
    rewrite fmap_cons. cbn [sum_list sum_list_with]. unfold diverging.
    rewrite Hd1, Hd2. done.
Qed.

End DatasetMore.

Section OneSided.

Lemma filter_sublist {A} (f : A → bool) (l : list A) :
  List.filter f l `sublist_of` l.
Proof.
  induction l as [|x l IH]; simpl; [constructor|].
  destruct (f x); by constructor.
Qed.

Lemma lookup_sublist (rows : list row) n : ∀ a idx (picked : list row),
  idx `sublist_of` seq a n →
  Forall2 (λ i r, rows !! i = Some r) idx picked →
  picked `sublist_of` take n (drop a rows).
Proof.
  induction n as [|n IH]; intros a idx picked Hsub Hpick.
  - apply sublist_nil_r in Hsub as ->. apply Forall2_nil_inv_l in Hpick as ->.
    constructor.
  - cbn [seq] in Hsub. apply sublist_cons_r in Hsub as [Hsub|(idx' & -> & Hsub)].
    + pose proof (IH (S a) idx picked Hsub Hpick) as Hrec.
      destruct (rows !! a) as [x|] eqn:Ha.
      * rewrite (drop_S rows x a Ha). simpl. by apply sublist_cons.
      * apply lookup_ge_None in Ha.
        rewrite drop_ge in Hrec |- * by lia.
        by rewrite take_nil in Hrec |- *.
    + apply Forall2_cons_inv_l in Hpick as (r & picked' & Hr & Hpick & ->).
      rewrite (drop_S rows r a Hr). simpl. apply sublist_skip.
      by eapply IH.
Qed.

Lemma diverging_one_sided (rows : list row) :
  diverging rows [] = seq 0 (length rows) ∧
  diverging [] rows = seq 0 (length rows).
Proof.
  unfold diverging. simpl. rewrite Nat.max_0_r.
  assert (∀ (f : nat → bool) l, (∀ i, In i l → f i = true) →
            List.filter f l = l) as Hall.
  { intros f l. induction l as [|x l IH]; intros Hf; simpl; [done|].
    rewrite Hf by (by left). f_equal. apply IH. intros. apply Hf. by right. }
  split; apply Hall; intros i [_ Hi]%in_seq; apply bool_decide_eq_true_2;
    destruct (lookup_lt_is_Some_2 rows i) as [r Hr]; try lia;
    rewrite Hr, lookup_nil; done.
Qed.

End OneSided.

(** X10 — the headers of every entry of the resolved dataset are the local
    headers of that sheet when the local sheet exists and has headers, and
    the remote headers of that sheet otherwise (no headers when the remote
    sheet is missing too); headers are never merged cell by cell. *)
Theorem resolved_headers all_sheets (local_data remote_data : dataset) w
    (resolved : dataset) total w' :
  compare_json_enhanced all_sheets local_data remote_data w
  = Some ((resolved, total), w') →
  ∀ name entry,
    resolved !! name = Some entry →
    sheet_headers entry
    = match local_data !! name with
      | Some (Sheet (h :: hs) _) => h :: hs
      | _ => match remote_data !! name with
             | Some remote_sheet => sheet_headers remote_sheet
             | None => []
             end
      end.
Proof.
  unfold compare_json_enhanced. intros Hrun.
  eapply (dataset_loop_entries local_data remote_data
            (λ name entry, sheet_headers entry = _)); [|exact Hrun|].
  - intros name w0 entry n w0' Hsheet.
    apply compare_sheet_inv in Hsheet as (rr & _ & ->). simpl.
    destruct (local_data !! name) as [[[|h hs] lrows]|]; simpl; try done;
      by destruct (remote_data !! name).
  - intros name entry. by rewrite lookup_empty.
Qed.

Lemma resolved_headers_witness :
  sheet_headers (Sheet ["K"; "V"] [])
  = match ({[ "A" := Sheet [] [["x"; "1"]] ]} : dataset) !! "A" with
    | Some (Sheet (h :: hs) _) => h :: hs
    | _ => match ({[ "A" := Sheet ["K"; "V"] [] ]} : dataset) !! "A" with
           | Some remote_sheet => sheet_headers remote_sheet
           | None => []
           end
    end.
Proof.
  refine (resolved_headers ["A"] {[ "A" := Sheet [] [["x"; "1"]] ]}
            {[ "A" := Sheet ["K"; "V"] [] ]} (World ["s"] [])
            {[ "A" := Sheet ["K"; "V"] [] ]} 1
            (World [] [Display "A" 0 ["K"; "V"] (Some ["x"; "1"]) None;
                       Ask row_prompt row_choices])
            _ "A" (Sheet ["K"; "V"] []) _);
    vm_compute; reflexivity.
Defined.

(** X11 — the total reported by a completed reconciliation is the sum, over
    the sheet names in iteration order, of the number of diverging row
    indices of each sheet, and equals the number of row-level decisions
    requested during the whole run. *)
Theorem total_conflicts_is_sum all_sheets (local_data remote_data : dataset) w
    (resolved : dataset) total w' :
  compare_json_enhanced all_sheets local_data remote_data w
  = Some ((resolved, total), w') →
  total
  = sum_list ((λ name,
                 length (diverging
                           (sheet_rows (default empty_sheet (local_data !! name)))
                           (sheet_rows (default empty_sheet (remote_data !! name)))))
              <$> all_sheets) ∧
  ∃ new, trace w' = trace w ++ new ∧ row_decisions new = total.
Proof.
  unfold compare_json_enhanced.
  intros (new & Ht & -> & Hd)%dataset_loop_total.
  split; [done|]. by exists new.
Qed.

Lemma total_conflicts_is_sum_witness :
  2 = sum_list ((λ name,
                   length (diverging
                     (sheet_rows (default empty_sheet
                        (({[ "A" := Sheet ["K"] [["a"]; ["b"]] ]} : dataset) !! name)))
                     (sheet_rows (default empty_sheet
                        ((<[ "B" := Sheet ["K"] [["z"]] ]>
                            {[ "A" := Sheet ["K"] [["a"]; ["c"]] ]} : dataset)
                         !! name)))))
                <$> ["B"; "A"]) ∧
  ∃ new,
    trace (World [] [Display "B" 0 ["K"] None (Some ["z"]);
                     Ask row_prompt row_choices;
                     Display "A" 1 ["K"] (Some ["b"]) (Some ["c"]);
                     Ask row_prompt row_choices])
    = trace (World ["2"; "1"] []) ++ new ∧
    row_decisions new = 2.
Proof.
  apply (total_conflicts_is_sum ["B"; "A"]
           {[ "A" := Sheet ["K"] [["a"]; ["b"]] ]}
           (<[ "B" := Sheet ["K"] [["z"]] ]> {[ "A" := Sheet ["K"] [["a"]; ["c"]] ]})
           (World ["2"; "1"] [])
           (<[ "A" := Sheet ["K"] [["a"]; ["b"]] ]> {[ "B" := Sheet ["K"] [["z"]] ]})).
  vm_compute. reflexivity.
Defined.

(** X12 — a sheet that exists on one side only is compared with an empty
    sheet: every one of its rows is a conflict (the reported count is its
    number of rows, and the operator is asked about each), the resolved entry
    takes its headers, and the resolved rows are a subsequence of its rows. *)
Theorem one_sided_sheet_conflicts_per_row sheet s w entry n w' :
  compare_sheet sheet s empty_sheet w = Some ((entry, n), w') ∨
  compare_sheet sheet empty_sheet s w = Some ((entry, n), w') →
  n = length (sheet_rows s) ∧
  (∃ new, trace w' = trace w ++ new ∧ row_decisions new = length (sheet_rows s)) ∧
  sheet_headers entry = sheet_headers s ∧
  sheet_rows entry `sublist_of` sheet_rows s.
Proof.
  destruct (diverging_one_sided (sheet_rows s)) as [Hdl Hdr].
  unfold diverging in Hdl, Hdr.
  intros [Hrun|Hrun];
    apply compare_sheet_inv in Hrun as (rr & Hloop & ->);
    pose proof Hloop as Hcount;
    apply rows_loop_inv in Hcount as (_ & new & _ & Ht & Hn & Hd);
    apply rows_loop_origin in Hloop as (tagged & -> & Hsub & Hall);
    change (sheet_rows empty_sheet) with (@nil (list string)) in *;
    change (sheet_headers empty_sheet) with (@nil string) in *.
  - rewrite Hdl, length_seq in Hd.
    split; [lia|]. split; [by exists new|]. split.
    { simpl. by destruct (sheet_headers s). }
    cbn [sheet_rows app]. etrans; [apply filter_sublist|].
    assert (tagged.*2 `sublist_of`
              take (length (sheet_rows s)) (drop 0 (sheet_rows s))) as Hpick.
    { eapply lookup_sublist.
      - cbn [length] in Hsub. rewrite Nat.max_0_r in Hsub. exact Hsub.
      - apply tagged_Forall2. eapply Forall_impl; [exact Hall|].
        intros [i r]. simpl. rewrite lookup_nil.
        by intros [?|[?|(a & b & _ & ? & _)]]. }
    by rewrite drop_0, take_ge in Hpick.
  - rewrite Hdr, length_seq in Hd.
    split; [lia|]. split; [by exists new|]. split; [done|].
    cbn [sheet_rows app]. etrans; [apply filter_sublist|].
    assert (tagged.*2 `sublist_of`
              take (length (sheet_rows s)) (drop 0 (sheet_rows s))) as Hpick.
    { eapply lookup_sublist; [exact Hsub|].
      apply tagged_Forall2. eapply Forall_impl; [exact Hall|].
      intros [i r]. simpl. rewrite lookup_nil.
      by intros [?|[?|(a & b & ? & _)]]. }
    by rewrite drop_0, take_ge in Hpick.
Qed.

Lemma one_sided_sheet_conflicts_per_row_witness :
  2 = length (sheet_rows (Sheet ["K"; "V"] [["x"; "1"]; ["y"; "2"]])) ∧
  (∃ new,
     trace (World [] [Display "A" 0 ["K"; "V"] (Some ["x"; "1"]) None;
                      Ask row_prompt row_choices;
                      Display "A" 1 ["K"; "V"] (Some ["y"; "2"]) None;
                      Ask row_prompt row_choices])
     = trace (World ["1"; "2"] []) ++ new ∧
     row_decisions new = length (sheet_rows (Sheet ["K"; "V"] [["x"; "1"]; ["y"; "2"]]))) ∧
  sheet_headers (Sheet ["K"; "V"] [["x"; "1"]]) = ["K"; "V"] ∧
  sheet_rows (Sheet ["K"; "V"] [["x"; "1"]])
  `sublist_of` sheet_rows (Sheet ["K"; "V"] [["x"; "1"]; ["y"; "2"]]).
Proof.
  apply (one_sided_sheet_conflicts_per_row "A"
           (Sheet ["K"; "V"] [["x"; "1"]; ["y"; "2"]]) (World ["1"; "2"] [])
           (Sheet ["K"; "V"] [["x"; "1"]]) 2
           (World [] [Display "A" 0 ["K"; "V"] (Some ["x"; "1"]) None;
                      Ask row_prompt row_choices;
                      Display "A" 1 ["K"; "V"] (Some ["y"; "2"]) None;
                      Ask row_prompt row_choices])).
  left. vm_compute. reflexivity.
Defined.

Section FixedPoint.

Lemma without_blank_id entry :
  Forall (λ r, is_blank r = false) (sheet_rows entry) →
  without_blank entry = entry.
Proof.
  destruct entry as [hs rows]. unfold without_blank. simpl. intros Hrows.
  f_equal. induction Hrows as [|r rows Hr _ IH]; simpl; [done|].
  by rewrite Hr, IH.
Qed.

Lemma dataset_identical all_sheets (D : dataset) w :
  (∀ name, name ∈ all_sheets ↔ name ∈ dom D) →
  compare_json_enhanced all_sheets D D w = Some ((without_blank <$> D, 0), w).
Proof.
  intros Hall. unfold compare_json_enhanced.
  rewrite dataset_loop_identical. do 3 f_equal.
  apply map_eq. intros name.
  rewrite foldl_insert_lookup, lookup_fmap, lookup_empty.
  case_decide as Hin.
  - apply Hall, elem_of_dom in Hin as [s ->]. done.
  - destruct (D !! name) as [s|] eqn:Hs; [|done].
    destruct Hin. apply Hall, elem_of_dom. by exists s.
Qed.

End FixedPoint.

(** X13 — the resolved dataset of a completed reconciliation is a fixed
    point: reconciled against itself, in any iteration order of its sheet
    names and on any console, it comes back unchanged with no conflict and
    without any interaction. *)
Theorem resolved_is_fixed_point all_sheets (local_data remote_data : dataset) w
    (resolved : dataset) total w' names w2 :
  compare_json_enhanced all_sheets local_data remote_data w
  = Some ((resolved, total), w') →
  enumerates names resolved resolved →
  compare_json_enhanced names resolved resolved w2 = Some ((resolved, 0), w2).
Proof.
  intros Hrun [_ Hnames].
  rewrite dataset_identical.
  2:{ intros name. rewrite Hnames. by rewrite (idemp_L (∪)). }
  do 3 f_equal. apply map_eq. intros name. rewrite lookup_fmap.
  destruct (resolved !! name) as [entry|] eqn:Hentry; [|done]. simpl.
  f_equal. apply without_blank_id.
  unfold compare_json_enhanced in Hrun.
  eapply (dataset_loop_entries local_data remote_data
            (λ _ e, Forall (λ r, is_blank r = false) (sheet_rows e)));
    [|exact Hrun| |exact Hentry].
  - intros x w0 e n w0' Hsheet.
    apply compare_sheet_inv in Hsheet as (rr & _ & ->).
    apply filter_kept_not_blank.
  - intros x e. by rewrite lookup_empty.
Qed.

Lemma resolved_is_fixed_point_witness :
  compare_json_enhanced ["S"]
    {[ "S" := Sheet ["K"; "V"] [["a"; "1"]; ["b"; "3"]] ]}
    {[ "S" := Sheet ["K"; "V"] [["a"; "1"]; ["b"; "3"]] ]}
    (World ["x"] [])
  = Some (({[ "S" := Sheet ["K"; "V"] [["a"; "1"]; ["b"; "3"]] ]}, 0),
          World ["x"] []).
Proof.
  apply (resolved_is_fixed_point ["S"]
           {[ "S" := Sheet ["K"; "V"] [["a"; "1"]; ["b"; "2"]; [" "; ""]] ]}
           {[ "S" := Sheet ["K"; "V"] [["a"; "1"]; ["b"; "3"]; [""; ""]] ]}
           (World ["2"; "1"] []) _ 2
           (World [] [Display "S" 1 ["K"; "V"] (Some ["b"; "2"]) (Some ["b"; "3"]);
                      Ask row_prompt row_choices;
                      Display "S" 2 ["K"; "V"] (Some [" "; ""]) (Some [""; ""]);
                      Ask row_prompt row_choices])).
  - vm_compute. reflexivity.
  - split.
    + apply (bool_decide_unpack _). vm_compute. reflexivity.
    + intros name. rewrite dom_singleton_L.
      rewrite !elem_of_cons, elem_of_nil, !elem_of_union, !elem_of_singleton.
      tauto.
Defined.

(** ** [display_conflict_detailed] *)

Section Display.

Lemma string_length_app (s t : string) :
  String.length (s +:+ t) = String.length s + String.length t.
Proof. induction s as [|c s IH]; simpl; [done|]. by rewrite IH. Qed.

Lemma str_repeat_space_length n : String.length (str_repeat " " n) = n.
Proof.
  induction n as [|n IH]; [done|].
  cbn [str_repeat]. by rewrite string_length_app, IH.
Qed.

Lemma ljust_length width s :
  String.length (ljust width s) = max width (String.length s).
Proof.
  unfold ljust. rewrite string_length_app, str_repeat_space_length. lia.
Qed.

Lemma max_header_len_bound headers h :
  h ∈ headers → (String.length h ≤ max_header_len headers)%nat.
Proof.
  unfold max_header_len. destruct headers as [|h0 hs]; [by intros ?%elem_of_nil|].
  change (list_truthy (h0 :: hs)) with true. cbv iota.
  induction (h0 :: hs) as [|x l IH]; [by intros ?%elem_of_nil|].
  rewrite fmap_cons. cbn [foldr].
  intros [->|Hin]%elem_of_cons; [lia|]. specialize (IH Hin). lia.
Qed.

Lemma enumerate_all (g : string * string → string) n
    (l : list (string * string)) : ∀ a,
  (a + length l ≤ n)%nat →
  omap (λ '(i, (header, value)),
          if (i <? n)%nat then Some (g (header, value)) else None)
       (zip (seq a (length l)) l)
  = g <$> l.
Proof.
  induction l as [|[h v] l IH]; intros a Hlen; [done|].
  cbn [length seq zip zip_with omap list_omap fmap list_fmap] in *.
  destruct (Nat.ltb_spec a n) as [_|Hge]; [|lia].
  f_equal. apply IH. lia.
Qed.

(** The index test of the loop never fails: one line per zipped pair. *)
Lemma value_lines_zip headers r :
  value_lines headers r
  = (λ '(header, value),
       "  " +:+ ljust (max_header_len headers) header +:+ ": " +:+ value)
    <$> zip headers r.
Proof.
  unfold value_lines.
  apply (enumerate_all
           (λ '(header, value),
              "  " +:+ ljust (max_header_len headers) header +:+ ": " +:+ value)).
  rewrite length_zip_with. lia.
Qed.

End Display.

(** X14 — [display_conflict_detailed] shows a row through [zip(headers, row)]:
    one value line per position below both the header count and the row
    length.  Cells beyond the headers are never shown, so two rows that agree
    on the first [len(headers)] cells produce the same value lines, and with
    no headers no cell is shown at all. *)
Theorem display_shows_header_columns_only headers (l r : row) :
  length (value_lines headers l) = min (length headers) (length l) ∧
  (take (length headers) l = take (length headers) r →
   value_lines headers l = value_lines headers r ∧
   (l ≠ [] → r ≠ [] →
    ∀ sheet row_idx other,
      display_conflict_output sheet row_idx headers (Some l) other
      = display_conflict_output sheet row_idx headers (Some r) other)) ∧
  value_lines [] l = [].
Proof.
  split; [|split].
  - by rewrite value_lines_zip, length_fmap, length_zip_with.
  - intros Htake.
    assert (value_lines headers l = value_lines headers r) as Hsame.
    { rewrite !value_lines_zip.
      by rewrite <- (zip_with_take_r pair headers l),
                 <- (zip_with_take_r pair headers r), Htake. }
    split; [done|]. intros Hl Hr sheet row_idx other.
    unfold display_conflict_output.
    rewrite !row_truthy_Some, !list_truthy_ne by done. simpl.
    by rewrite Hsame.
  - done.
Qed.

Lemma display_shows_header_columns_only_witness :
  value_lines ["Name"; "Age"] ["Alice"; "30"; "x"]
  = value_lines ["Name"; "Age"] ["Alice"; "30"; "y"; "z"] ∧
  display_conflict_output "Sheet1" 0 ["Name"; "Age"]
                          (Some ["Alice"; "30"; "x"]) (Some ["Bob"])
  = display_conflict_output "Sheet1" 0 ["Name"; "Age"]
                            (Some ["Alice"; "30"; "y"; "z"]) (Some ["Bob"]).
Proof.
  destruct (proj1 (proj2 (display_shows_header_columns_only
                            ["Name"; "Age"] ["Alice"; "30"; "x"]
                            ["Alice"; "30"; "y"; "z"])) eq_refl)
    as [Hlines Hout].
  split; [exact Hlines|]. apply Hout; discriminate.
Defined.

(** X15 — the j-th value line printed for a row shows the j-th header and the
    j-th cell, the header left-justified in a field as wide as the longest
    header, so that the separating colon stands in the same column on every
    line. *)
Theorem display_lines_are_aligned headers (r : row) j line :
  value_lines headers r !! j = Some line →
  ∃ header value,
    headers !! j = Some header ∧ r !! j = Some value ∧
    line = "  " +:+ ljust (max_header_len headers) header +:+ ": " +:+ value ∧
    String.length (ljust (max_header_len headers) header)
    = max_header_len headers.
Proof.
  rewrite value_lines_zip, list_lookup_fmap.
  destruct (zip headers r !! j) as [[header value]|] eqn:Hj; [|done].
  intros [= <-].
  apply lookup_zip_with_Some in Hj as (h & v & [= -> ->] & Hh & Hv).
  exists h, v. do 3 (split; [done|]).
  rewrite ljust_length. apply Nat.max_l, max_header_len_bound.
  by eapply list_elem_of_lookup_2.
Qed.

Lemma display_lines_are_aligned_witness :
  ∃ header value,
    ["Name"; "Age"] !! 1 = Some header ∧ ["Alice"; "30"; "x"] !! 1 = Some value ∧
    "  Age : 30"
    = "  " +:+ ljust (max_header_len ["Name"; "Age"]) header +:+ ": " +:+ value ∧
    String.length (ljust (max_header_len ["Name"; "Age"]) header)
    = max_header_len ["Name"; "Age"].
Proof.
  apply (display_lines_are_aligned ["Name"; "Age"] ["Alice"; "30"; "x"] 1
           "  Age : 30").
  reflexivity.
Defined.

(** ** [excel_to_json_streaming] *)

Section DecoderFacts.

Context {value : Type} (py_str : value → string) (py_bool : value → bool).

Local Abbreviation has_content := (existsb (cell_has_content py_str)).
Local Abbreviation texts := (fmap (M := list) (cell_text py_str)).

Lemma decode_rows_from data : ∀ a headers rows,
  (0 < a)%nat →
  foldl (λ st '(i, cells), decode_row py_str py_bool i cells st) (headers, rows)
        (zip (seq a (length data)) data)
  = (headers, rows ++ (texts <$> List.filter has_content data)).
Proof.
  induction data as [|cells data IH]; intros a headers rows Ha.
  - simpl. by rewrite app_nil_r.
  - cbn [length seq zip zip_with foldl List.filter]. unfold decode_row at 2.
    destruct (Nat.eqb_spec a 0) as [->|_]; [lia|].
    destruct (has_content cells).
    + rewrite IH by lia. by rewrite fmap_cons, <- app_assoc.
    + by rewrite IH by lia.
Qed.

Lemma decode_sheet_cons hdr data :
  decode_sheet py_str py_bool (hdr :: data)
  = Sheet (header_text py_str py_bool <$> hdr)
          (texts <$> List.filter has_content data).
Proof.
  unfold decode_sheet. cbn [length seq zip zip_with foldl].
  unfold decode_row at 2. cbn [Nat.eqb]. by rewrite decode_rows_from by lia.
Qed.

Lemma cell_content_not_blank cells :
  has_content cells = true → is_blank (texts cells) = false.
Proof.
  unfold is_blank. induction cells as [|c cells IH]; simpl; [done|].
  destruct c as [v|]; simpl.
  - destruct (str_truthy (strip (py_str v))); simpl; [done|exact IH].
  - exact IH.
Qed.

Lemma decode_sheet_not_blank ws :
  Forall (λ r, is_blank r = false) (sheet_rows (decode_sheet py_str py_bool ws)).
Proof.
  destruct ws as [|hdr data]; [constructor|].
  rewrite decode_sheet_cons. simpl.
  induction data as [|cells data IH]; simpl; [constructor|].
  destruct (has_content cells) eqn:Hc; [|exact IH].
  rewrite fmap_cons. constructor; [by apply cell_content_not_blank|exact IH].
Qed.

Lemma decoded_entries (P : sheet_t → Prop) wb :
  (∀ ws, P (decode_sheet py_str py_bool ws)) →
  ∀ name entry,
    excel_to_json_streaming py_str py_bool wb !! name = Some entry → P entry.
Proof.
  intros HP. unfold excel_to_json_streaming.
  assert (∀ m : dataset, (∀ name e, m !! name = Some e → P e) →
            ∀ name e,
              foldl (λ (data : dataset) '(sheet_name, ws),
                       <[sheet_name := decode_sheet py_str py_bool ws]> data)
                    m wb !! name = Some e → P e) as Hfold.
  { induction wb as [|[x ws] wb IH]; intros m Hm; [exact Hm|].
    cbn [foldl]. apply IH. intros name e.
    destruct (decide (name = x)) as [->|Hne].
    - rewrite lookup_insert_eq. by intros [= <-].
    - rewrite lookup_insert_ne by done. apply Hm. }
  apply Hfold. intros name e. by rewrite lookup_empty.
Qed.

End DecoderFacts.

(** X16 — the decoder takes the first row of a worksheet as the header row,
    whatever it holds (a cell that is [None] or falsy becomes the empty
    string); of the following rows it keeps, in order, exactly those with a
    cell that is not empty after trimming, cell by cell as text with [None]
    as the empty string.  A worksheet without rows gives no headers and no
    rows. *)
Theorem decoder_keeps_rows_with_content
    {value : Type} (py_str : value → string) (py_bool : value → bool)
    (hdr : list (option value)) (data : list (list (option value))) :
  decode_sheet py_str py_bool [] = Sheet [] [] ∧
  decode_sheet py_str py_bool (hdr :: data)
  = Sheet (fmap (M := list) (header_text py_str py_bool) hdr)
          (fmap (M := list) (fmap (M := list) (cell_text py_str))
                (List.filter (existsb (cell_has_content py_str)) data)).
Proof. split; [done|apply decode_sheet_cons]. Qed.

(** X17 — a decoded dataset holds no blank row, so reconciling a decoded
    workbook with an identical decoding of it changes nothing: the result is
    the dataset itself, with no conflict and no interaction. *)
Theorem decoded_dataset_is_stable
    {value : Type} (py_str : value → string) (py_bool : value → bool)
    (wb : list (string * list (list (option value)))) names w :
  let D := excel_to_json_streaming py_str py_bool wb in
  enumerates names D D →
  (∀ name entry, D !! name = Some entry →
                 Forall (λ r, is_blank r = false) (sheet_rows entry)) ∧
  compare_json_enhanced names D D w = Some ((D, 0), w).
Proof.
  intros D [_ Hnames].
  assert (∀ name entry, D !! name = Some entry →
            Forall (λ r, is_blank r = false) (sheet_rows entry)) as Hrows.
  { apply decoded_entries. apply decode_sheet_not_blank. }
  split; [exact Hrows|].
  rewrite dataset_identical.
  2:{ intros name. rewrite Hnames. by rewrite (idemp_L (∪)). }
  do 3 f_equal. apply map_eq. intros name. rewrite lookup_fmap.
  destruct (D !! name) as [entry|] eqn:Hentry; [|done]. simpl.
  f_equal. apply without_blank_id. by eapply Hrows.
Qed.

Lemma decoded_dataset_is_stable_witness :
  let D := excel_to_json_streaming (λ s : string, s) str_truthy
             [("S", [[Some "K"; None]; [Some "a"; Some " "]; [None; Some " "];
                     [Some ""; Some "b"]])] in
  (∀ name entry, D !! name = Some entry →
                 Forall (λ r, is_blank r = false) (sheet_rows entry)) ∧
  compare_json_enhanced ["S"] D D (World ["1"] []) = Some ((D, 0), World ["1"] []).
Proof.
  apply (decoded_dataset_is_stable (λ s : string, s) str_truthy
           [("S", [[Some "K"; None]; [Some "a"; Some " "]; [None; Some " "];
                   [Some ""; Some "b"]])] ["S"] (World ["1"] [])).
  split.
  - apply (bool_decide_unpack _). vm_compute. reflexivity.
  - intros name. unfold excel_to_json_streaming. cbn [foldl].
    rewrite dom_insert_L, dom_empty_L.
    rewrite !elem_of_cons, elem_of_nil, !elem_of_union, !elem_of_singleton,
      elem_of_empty.
    tauto.
Defined.

(** ** [json_to_excel_optimized] *)

Section Batches.

Context {A : Type}.

Lemma batches_cover (l : list A) step : (0 < step)%nat →
  ∀ fuel start, (length l - start ≤ fuel)%nat →
    flat_map (λ i, slice i (i + step) l) (range_from fuel start (length l) step)
    = drop start l.
Proof.
  intros Hstep. induction fuel as [|fuel IH]; intros start Hfuel.
  - simpl. rewrite drop_ge; [done|lia].
  - cbn [range_from]. destruct (Nat.ltb_spec start (length l)) as [Hlt|Hge].
    + cbn [flat_map]. rewrite IH by lia. unfold slice.
      replace (start + step - start) with step by lia.
      rewrite <- (take_drop step (drop start l)) at 2.
      by rewrite drop_drop.
    + simpl. rewrite drop_ge; [done|lia].
Qed.

End Batches.

(** X18 — writing a sheet appends its rows to the worksheet batch by batch
    without losing, repeating or reordering any: the appended rows are the
    header row, when the headers are not empty, followed by all data rows in
    order.  With empty headers no header row is written. *)
Theorem sheet_written_row_by_row content :
  sheet_appends content
  = (if list_truthy (sheet_headers content) then [sheet_headers content] else [])
    ++ sheet_rows content.
Proof.
  unfold sheet_appends, range_step. f_equal.
  rewrite (batches_cover (sheet_rows content) batch_size);
    [apply drop_0|unfold batch_size; lia|lia].
Qed.

(** ** [run_git_pull] *)

(** X19 — [run_git_pull] never switches or pulls over uncommitted changes:
    a checkout or pull is run only after [git status --porcelain] completed
    with blank output; a checkout is run only when the current branch differs
    from the requested one; and the result is [True] only when every command
    run completed and the last one is the pull. *)
Theorem git_pull_is_guarded (git : git_env) branch ok cmds :
  run_git_pull git branch = (ok, cmds) →
  let status := ["git"; "status"; "--porcelain"] in
  let show_current := ["git"; "branch"; "--show-current"] in
  let checkout := ["git"; "checkout"; branch] in
  let pull := ["git"; "pull"; "origin"; branch] in
  (checkout ∈ cmds ∨ pull ∈ cmds →
   ∃ out, git [] status = Completed out ∧ strip out = "") ∧
  (checkout ∈ cmds →
   ∃ current, git [status] show_current = Completed current ∧
              strip current ≠ branch) ∧
  (ok = true →
   last cmds = Some pull ∧
   ∀ before cmd after, cmds = before ++ cmd :: after →
                       git before cmd ≠ CalledProcessError).
Proof.
  intros Hrun status show_current checkout pull.
  unfold run_git_pull in Hrun. cbv zeta in Hrun.
  fold status show_current checkout pull in Hrun.
  assert (∀ out, str_truthy (strip out) = false → strip out = "") as Hblank.
  { intros out. by destruct (strip out). }
  assert (∀ (l : list (list string)) (P : Prop),
            (∀ before cmd after, l = before ++ cmd :: after →
               git before cmd ≠ CalledProcessError) ↔
            (∀ i cmd, l !! i = Some cmd → git (take i l) cmd ≠ CalledProcessError))
    as Hsplit.
  { intros l _. split.
    - intros H i cmd Hi. apply (H (take i l) cmd (drop (S i) l)).
      by rewrite <- (take_drop_middle l i cmd Hi) at 1.
    - intros H before cmd after ->.
      specialize (H (length before) cmd).
      rewrite take_app_length, list_lookup_middle in H by done. by apply H. }
  assert (∀ l : list (list string),
            l = [status] ∨ l = [status; show_current] ∨
            l = [status; show_current; pull] →
            checkout ∉ l) as Hno_checkout.
  { intros l Hl H. destruct Hl as [->|[->| ->]];
      rewrite !elem_of_cons, elem_of_nil in H;
      unfold status, show_current, checkout, pull in H;
      intuition discriminate. }
  assert (∀ l : list (list string),
            l = [status] ∨ l = [status; show_current] → pull ∉ l) as Hno_pull.
  { intros l Hl H. destruct Hl as [->| ->];
      rewrite !elem_of_cons, elem_of_nil in H;
      unfold status, show_current, checkout, pull in H;
      intuition discriminate. }
  destruct (git [] status) as [|out] eqn:E1.
  { injection Hrun as <- <-. split; [|split]; [| |done].
    - intros [H|H]; exfalso;
        [eapply Hno_checkout|eapply Hno_pull]; [|exact H| |exact H]; auto.
    - intros H. exfalso. eapply Hno_checkout; [|exact H]; auto. }
  destruct (str_truthy (strip out)) eqn:Eout.
  { injection Hrun as <- <-. split; [|split]; [| |done].
    - intros [H|H]; exfalso;
        [eapply Hno_checkout|eapply Hno_pull]; [|exact H| |exact H]; auto.
    - intros H. exfalso. eapply Hno_checkout; [|exact H]; auto. }
  split; [intros _; exists out; auto|].
  destruct (git [status] show_current) as [|current] eqn:E2.
  { injection Hrun as <- <-. split; [|done].
    intros H. exfalso. eapply Hno_checkout; [|exact H]; auto. }
  case_bool_decide as Hbranch.
  - split; [intros _; by exists current|].
    destruct (git [status; show_current] checkout) as [|o3] eqn:E3;
      [by injection Hrun as <- <-|].
    destruct (git [status; show_current; checkout] pull) as [|o4] eqn:E4;
      injection Hrun as <- <-; [done|].
    intros _. split; [done|]. apply (Hsplit _ True).
    intros [|[|[|[|i]]]] cmd; simpl; intros [= <-]; congruence.
  - split.
    { intros H. exfalso. destruct (git [status; show_current] pull);
        injection Hrun as <- <-; (eapply Hno_checkout; [|exact H]); auto. }
    destruct (git [status; show_current] pull) as [|o4] eqn:E4;
      injection Hrun as <- <-; [done|].
    intros _. split; [done|]. apply (Hsplit _ True).
    intros [|[|[|i]]] cmd; simpl; intros [= <-]; congruence.
Qed.

Lemma git_pull_is_guarded_witness :
  let git : git_env :=
    λ before cmd,
      if bool_decide (cmd = ["git"; "branch"; "--show-current"])
      then Completed "main" else Completed "" in
  (["git"; "checkout"; "dev"] ∈ [["git"; "status"; "--porcelain"];
                                  ["git"; "branch"; "--show-current"];
                                  ["git"; "checkout"; "dev"];
                                  ["git"; "pull"; "origin"; "dev"]] ∨
   ["git"; "pull"; "origin"; "dev"] ∈ [["git"; "status"; "--porcelain"];
                                       ["git"; "branch"; "--show-current"];
                                       ["git"; "checkout"; "dev"];
                                       ["git"; "pull"; "origin"; "dev"]] →
   ∃ out, git [] ["git"; "status"; "--porcelain"] = Completed out ∧ strip out = "") ∧
  (["git"; "checkout"; "dev"] ∈ [["git"; "status"; "--porcelain"];
                                  ["git"; "branch"; "--show-current"];
                                  ["git"; "checkout"; "dev"];
                                  ["git"; "pull"; "origin"; "dev"]] →
   ∃ current,
     git [["git"; "status"; "--porcelain"]] ["git"; "branch"; "--show-current"]
     = Completed current ∧ strip current ≠ "dev") ∧
  (true = true →
   last [["git"; "status"; "--porcelain"]; ["git"; "branch"; "--show-current"];
         ["git"; "checkout"; "dev"]; ["git"; "pull"; "origin"; "dev"]]
   = Some ["git"; "pull"; "origin"; "dev"] ∧
   ∀ before cmd after,
     [["git"; "status"; "--porcelain"]; ["git"; "branch"; "--show-current"];
      ["git"; "checkout"; "dev"]; ["git"; "pull"; "origin"; "dev"]]
     = before ++ cmd :: after →
     git before cmd ≠ CalledProcessError).
Proof.
  intros git.
  apply (git_pull_is_guarded git "dev" true
           [["git"; "status"; "--porcelain"]; ["git"; "branch"; "--show-current"];
            ["git"; "checkout"; "dev"]; ["git"; "pull"; "origin"; "dev"]]).
  reflexivity.
Defined.

(** ** File names *)

Section Replace.

Lemma app_String c (s t : string) : String c s +:+ t = String c (s +:+ t).
Proof. done. Qed.

Lemma app_empty (t : string) : "" +:+ t = t.
Proof. done. Qed.

Lemma starts_with_app p t : starts_with p (p +:+ t) = true.
Proof.
  induction p as [|c p IH]; [done|]. rewrite app_String. cbn [starts_with].
  by rewrite bool_decide_eq_true_2, IH.
Qed.

Lemma starts_with_inv p : ∀ s, starts_with p s = true → ∃ t, s = p +:+ t.
Proof.
  induction p as [|c p IH]; intros s; [by exists s|].
  destruct s as [|d s]; [done|]. cbn [starts_with].
  intros [Hc Hp]%andb_prop. apply bool_decide_eq_true_1 in Hc as <-.
  destruct (IH s Hp) as [t ->]. by exists t.
Qed.

Lemma replace_go_skip old new x : ∀ t,
  replace_go old new (String.length x) (x +:+ t) = replace_go old new 0 t.
Proof. induction x as [|c x IH]; intros t; [done|]. apply IH. Qed.

Lemma replace_match old new c o t :
  old = String c o →
  replace old new (old +:+ t) = new +:+ replace old new t.
Proof.
  intros ->. unfold replace. rewrite app_String. cbn [replace_go].
  rewrite <- app_String, starts_with_app. cbn [String.length].
  replace (S (String.length o) - 1) with (String.length o) by lia.
  by rewrite replace_go_skip.
Qed.

Lemma replace_nomatch old new c t :
  starts_with old (String c t) = false →
  replace old new (String c t) = String c (replace old new t).
Proof. intros Hm. unfold replace. cbn [replace_go]. by rewrite Hm. Qed.

Lemma contains_cons p c t :
  contains p (String c t) = starts_with p (String c t) || contains p t.
Proof. done. Qed.

Lemma contains_app_false p x : ∀ t,
  contains p (x +:+ t) = false → contains p t = false.
Proof.
  induction x as [|c x IH]; intros t; [done|].
  rewrite app_String, contains_cons. intros [_ H]%orb_false_elim. by apply IH.
Qed.

Lemma contains_app_mid p x t : contains p (x +:+ p +:+ t) = true.
Proof.
  induction x as [|c x IH].
  - rewrite app_empty. destruct (p +:+ t) eqn:E.
    + simpl. rewrite <- E. by rewrite starts_with_app.
    + rewrite contains_cons, <- E, starts_with_app. done.
  - rewrite app_String, contains_cons, IH. apply orb_true_r.
Qed.

(** Strings without a dot. *)
Local Abbreviation nodot x := (contains "." x = false).

Lemma nodot_cons d x : nodot (String d x) → d ≠ "."%char ∧ nodot x.
Proof.
  rewrite contains_cons. cbn [starts_with].
  intros [Hd Hx]%orb_false_elim. split; [|done].
  rewrite andb_true_r in Hd. apply bool_decide_eq_false_1 in Hd. congruence.
Qed.

Section Dotted.

Context (o n : string).

Local Abbreviation old := (String "." o).
Local Abbreviation new := (String "." n).

(** A dot-free prefix of the result was already a prefix of the input. *)
Lemma starts_with_replace x : ∀ t,
  nodot x → starts_with x (replace old new t) = true → starts_with x t = true.
Proof.
  induction x as [|d x IH]; intros t Hx; [done|].
  apply nodot_cons in Hx as [Hd Hx].
  destruct t as [|c t]; [done|].
  destruct (starts_with old (String c t)) eqn:Hm.
  - apply starts_with_inv in Hm as [t' ->].
    rewrite (replace_match old new "." o) by done.
    rewrite app_String. cbn [starts_with].
    by rewrite bool_decide_eq_false_2.
  - rewrite replace_nomatch by done. cbn [starts_with].
    intros [Hc Hp]%andb_prop. rewrite Hc. simpl. by apply IH.
Qed.

Lemma contains_nodot_app x v :
  nodot x → contains new v = false → contains new (x +:+ v) = false.
Proof.
  intros Hx Hv. induction x as [|d x IH]; [done|].
  apply nodot_cons in Hx as [Hd Hx].
  rewrite app_String, contains_cons. cbn [starts_with].
  rewrite bool_decide_eq_false_2 by congruence. by apply IH.
Qed.

End Dotted.

Lemma same_length_prefix (b : string) : ∀ a v,
  String.length a = String.length b →
  starts_with b (a +:+ v) = true → a = b.
Proof.
  induction b as [|c b IH]; intros [|d a] v Hlen; try done.
  rewrite app_String. cbn [starts_with].
  intros [Hc Hp]%andb_prop. apply bool_decide_eq_true_1 in Hc as ->.
  f_equal. eapply IH; [|exact Hp]. by injection Hlen.
Qed.

Section RoundTrip.

Context (a b : string).
Context (Ha : nodot a) (Hb : nodot b).
Context (Hlen : String.length a = String.length b) (Hne : a ≠ b).

Local Abbreviation A := (String "." a).
Local Abbreviation B := (String "." b).

Lemma replace_back m : ∀ s,
  (String.length s ≤ m)%nat → contains B s = false →
  replace B A (replace A B s) = s.
Proof.
  induction m as [|m IH]; intros [|c t] Hm Hs; try done; [simpl in Hm; lia|].
  destruct (starts_with A (String c t)) eqn:HA.
  - apply starts_with_inv in HA as [t' E]. rewrite E in *.
    rewrite (replace_match A B "." a), (replace_match B A "." b) by done.
    f_equal. apply IH.
    + rewrite string_length_app in Hm. simpl in Hm. lia.
    + by eapply contains_app_false.
  - rewrite replace_nomatch by done.
    rewrite contains_cons in Hs. apply orb_false_elim in Hs as [HB Ht].
    rewrite replace_nomatch.
    + f_equal. apply IH; [simpl in Hm; lia|done].
    + destruct (starts_with B (String c (replace A B t))) eqn:HB'; [|done].
      cbn [starts_with] in HB', HB.
      apply andb_prop in HB' as [Hc Hp]. rewrite Hc in HB. simpl in HB.
      apply (starts_with_replace a b) in Hp; [congruence|done].
Qed.

Lemma replace_removes m : ∀ u,
  (String.length u ≤ m)%nat → contains B (replace B A u) = false.
Proof.
  induction m as [|m IH]; intros [|c t] Hm; try done; [simpl in Hm; lia|].
  destruct (starts_with B (String c t)) eqn:HB.
  - apply starts_with_inv in HB as [t' E]. rewrite E in *.
    rewrite (replace_match B A "." b) by done.
    rewrite app_String, contains_cons. apply orb_false_intro.
    + cbn [starts_with]. rewrite bool_decide_eq_true_2 by done. simpl.
      destruct (starts_with b (a +:+ replace B A t')) eqn:Hp; [|done].
      by apply same_length_prefix in Hp.
    + apply contains_nodot_app; [done|]. apply IH.
      rewrite string_length_app in Hm. simpl in Hm. lia.
  - rewrite replace_nomatch by done. rewrite contains_cons.
    apply orb_false_intro; [|apply IH; simpl in Hm; lia].
    destruct (starts_with B (String c (replace B A t))) eqn:HB'; [|done].
    cbn [starts_with] in HB', HB.
    apply andb_prop in HB' as [Hc Hp]. rewrite Hc in HB. simpl in HB.
    apply (starts_with_replace b a) in Hp; [congruence|done].
Qed.

Lemma replace_round_trip s :
  replace B A (replace A B s) = s ↔ contains B s = false.
Proof.
  split.
  - intros <-. by eapply replace_removes.
  - by eapply replace_back.
Qed.

End RoundTrip.

Lemma basename_join dir base :
  contains "/" base = false → basename (dir +:+ "/" +:+ base) = base.
Proof.
  intros Hbase. induction dir as [|c dir IH].
  - rewrite app_empty. change ("/" +:+ base) with (String "/" base).
    cbn [basename]. by rewrite Hbase.
  - rewrite app_String. cbn [basename]. by rewrite contains_app_mid.
Qed.

End Replace.

(** X20 — a workbook [base] found in a directory is written back under its
    own name exactly when that name does not contain ".json": the decoded
    file is named by replacing every ".xlsx" of the base name with ".json",
    and the resolved file is written back under the name obtained by
    replacing every ".json" with ".xlsx", which restores the original name
    if and only if it held no ".json" to begin with. *)
Theorem written_back_under_own_name dir base :
  contains "/" base = false →
  (xlsx_name (json_name (dir +:+ "/" +:+ base)) = base
   ↔ contains ".json" base = false).
Proof.
  intros Hbase. unfold xlsx_name, json_name. rewrite basename_join by done.
  by apply (replace_round_trip "xlsx" "json").
Qed.

Lemma written_back_under_own_name_witness :
  (xlsx_name (json_name ("./datatest" +:+ "/" +:+ "report.json.xlsx"))
   = "report.json.xlsx"
   ↔ contains ".json" "report.json.xlsx" = false) ∧
  xlsx_name (json_name ("./datatest" +:+ "/" +:+ "report.json.xlsx"))
  = "report.xlsx.xlsx".
Proof.
  split; [|reflexivity].
  apply (written_back_under_own_name "./datatest" "report.json.xlsx").
  reflexivity.
Defined.

(** ** A conflict with one row absent *)

(** X21 — at an index where only one of the two sheets has a row, and that
    row is not empty, the answer that keeps the present side and both merge
    answers place that row in the resolved rows exactly as it is (untrimmed),
    without any field-level decision. *)
Theorem present_row_kept_verbatim
    sheet headers local_rows remote_rows i (r : row)
    resolved_rows sheet_conflicts w choice rest :
  r ≠ [] →
  (local_rows !! i = None ∧ remote_rows !! i = Some r ∧
   (choice = "2" ∨ choice = "3" ∨ choice = "4")) ∨
  (local_rows !! i = Some r ∧ remote_rows !! i = None ∧
   (choice = "1" ∨ choice = "3" ∨ choice = "4")) →
  read_choice row_choices (stdin w) = Some (choice, rest) →
  row_step sheet headers local_rows remote_rows i
           (resolved_rows, sheet_conflicts) w
  = Some ((resolved_rows ++ [r], S sheet_conflicts),
          World rest
            (trace w ++ [Display sheet i headers (local_rows !! i)
                                 (remote_rows !! i);
                         Ask row_prompt row_choices])).
Proof.
  intros Hr Hside Hread.
  assert (local_rows !! i ≠ remote_rows !! i) as Hne.
  { destruct Hside as [(-> & -> & _)|(-> & -> & _)]; discriminate. }
  rewrite (row_step_conflict _ _ _ _ _ _ _ _ _ _ Hne Hread). cbv zeta.
  destruct r as [|c r']; [done|].
  unfold merge_rows_enhanced, append_row, bind.
  destruct Hside as [(-> & -> & [->|[->| ->]])|(-> & -> & [->|[->| ->]])];
    reflexivity.
Qed.

Lemma present_row_kept_verbatim_witness :
  row_step "S" ["K"] [["a"]] [["a"]; [" b "; ""]] 1 ([["a"]], 0) (World ["3"] [])
  = Some (([["a"]] ++ [[" b "; ""]], 1),
          World [] ([] ++ [Display "S" 1 ["K"] ([["a"]] !! 1)
                                   ([["a"]; [" b "; ""]] !! 1);
                           Ask row_prompt row_choices])).
Proof.
  apply (present_row_kept_verbatim "S" ["K"] [["a"]] [["a"]; [" b "; ""]] 1
           [" b "; ""] [["a"]] 0 (World ["3"] []) "3" []).
  - discriminate.
  - left. split; [reflexivity|]. split; [reflexivity|]. right. by left.
  - reflexivity.
Defined.
